(** * bot.py: PDF to chat blocks and back to a Word document

    A shallow embedding of the three handlers of [src/bot.py]
    ([handle_pdf], [download_word_callback], [start_over_callback]) and
    the properties of the extraction, delivery and assembly steps.

    Conventions.
    - A Python [str] is a list of Unicode code points ([str]); [len] and
      slicing count code points, which is what the chunking of
      [handle_pdf] relies on.  Identifier-like strings that the code only
      compares or concatenates (MIME type, file names, image extension,
      dictionary keys) are [string].
    - [bytes] is a list of bytes.
    - The per-user dictionary [context.user_data] and the file system are
      finite maps keyed by strings.
    - Calls into the chat transport are recorded, in order, in a log.
    - What the third-party libraries decide (the Unicode tables behind
      [\w] and [str.strip], the builtin [hash], the name picked by
      [tempfile], what the document writer accepts and how it reads a
      text back, whether the transport accepts an attachment) is a
      parameter of the model.
    - A handler step either returns or raises.  The failures modelled
      are the ones the code meets in the open: the text reader on a
      page and [add_picture] (both caught), opening the downloaded file
      as a PDF, [add_paragraph] and [send_document] (all three ending
      the handler).  Every other library call is taken to return. *)

From stdpp Require Import gmap strings list fin_maps sorting.
From Stdlib Require Import ZArith NArith Lia.
From Equations Require Import Equations.

Local Open Scope N_scope.

(** ** Text *)

Abbreviation char := N.
Abbreviation str := (list char).
Abbreviation bytes := (list Byte.byte).

#[global] Instance byte_eq_dec : EqDecision Byte.byte := Byte.byte_eq_dec.

Definition NL : char := 10.
Definition HYPHEN : char := 45.
Definition SPACE : char := 32.

(** [\w] on the ASCII range: [a-zA-Z0-9_]. *)
Definition ascii_word (c : char) : bool :=
  ((48 <=? c) && (c <=? 57)) || ((65 <=? c) && (c <=? 90))
  || (c =? 95) || ((97 <=? c) && (c <=? 122)).

(** [str.isspace] on the ASCII range: TAB, LF, VT, FF, CR, FS, GS, RS, US
    and the space. *)
Definition ascii_space (c : char) : bool :=
  ((9 <=? c) && (c <=? 13)) || ((28 <=? c) && (c <=? 32)).

Section Text.

(** The Unicode database, for the code points above the ASCII range:
    alphanumeric characters (plus nothing else: the underscore is
    ASCII) and white space. *)
Variable unicode_alnum : char → bool.
Variable unicode_space : char → bool.

Definition is_word (c : char) : bool :=
  if c <? 128 then ascii_word c else unicode_alnum c.

Definition is_space (c : char) : bool :=
  if c <? 128 then ascii_space c else unicode_space c.

(** [re.sub(r"(\w)-\n(\w)", r"\1\2", s)]: the scan goes left to right;
    a match consumes its four characters and the scan resumes after
    them, otherwise one character is copied. *)
Fixpoint join_hyphen (s : str) : str :=
  match s with
  | a :: ((h :: n :: b :: rest) as t) =>
      if is_word a && (h =? HYPHEN) && (n =? NL) && is_word b
      then a :: b :: join_hyphen rest
      else a :: join_hyphen t
  | a :: t => a :: join_hyphen t
  | [] => []
  end.

(** [s.replace("\n", " ")]. *)
Definition replace_nl (s : str) : str :=
  (λ c, if c =? NL then SPACE else c) <$> s.

(** The spaces a greedy [ {2,}] swallows after the first one. *)
Fixpoint drop_spaces (s : str) : str :=
  match s with
  | c :: t => if c =? SPACE then drop_spaces t else s
  | [] => []
  end.

(** [re.sub(r" {2,}", " ", s)]: at a space followed by a space the
    greedy match takes the whole run and one space is written;
    anything else is copied. *)
Equations? collapse_spaces (s : str) : str by wf (length s) lt :=
  collapse_spaces [] := [];
  collapse_spaces [c] := [c];
  collapse_spaces (c :: d :: t) with (c =? SPACE) && (d =? SPACE) => {
    | true := SPACE :: collapse_spaces (drop_spaces t);
    | false := c :: collapse_spaces (d :: t) }.
Proof.
  all: simpl; try lia.
  enough (length (drop_spaces t) ≤ length t)%nat by lia.
  clear. induction t as [|x t IH]; simpl; [lia|].
  destruct (x =? SPACE); simpl; lia.
Qed.

Fixpoint drop_while (p : char → bool) (s : str) : str :=
  match s with
  | c :: t => if p c then drop_while p t else s
  | [] => []
  end.

(** [s.strip()]. *)
Definition lstrip (s : str) : str := drop_while is_space s.
Definition rstrip (s : str) : str := reverse (drop_while is_space (reverse s)).
Definition strip (s : str) : str := rstrip (lstrip s).

(** Lines 59 to 61 of [handle_pdf]. *)
Definition normalize (s : str) : str :=
  strip (collapse_spaces (replace_nl (join_hyphen s))).

End Text.

(** ** Content blocks and the PDF as the two readers see it *)

(** [("text", page_text)] and [("image", (img_bytes, ext))]. *)
Inductive block :=
  | Text (page_text : str)
  | Image (img_bytes : bytes) (ext : string).

#[global] Instance block_eq_dec : EqDecision block.
Proof. solve_decision. Defined.

(** What [reader.pages[i].extract_text()] does on a page: it raises
    (also when the text reader has no page [i]), or returns [None] or a
    string. *)
Inductive extract_outcome :=
  | Raised
  | Returned (r : option str).

(** A page: the outcome of the text reader, and for each entry of
    [get_images(full=True)], in that order, the ['image'] and ['ext']
    fields of [extract_image(xref)]. *)
Record page := Page {
  page_text : extract_outcome;
  page_images : list (bytes * string)
}.

Abbreviation pdf := (list page).

Definition is_text (b : block) : bool :=
  match b with Text _ => true | Image _ _ => false end.

Definition has_bytes (c : bytes) (b : block) : bool :=
  match b with Text _ => false | Image d _ => bool_decide (d = c) end.

(** All images of the document, in page order and then in the order of
    [get_images]. *)
Definition all_images (doc : pdf) : list (bytes * string) :=
  flat_map page_images doc.

(** ** The extraction loop of [handle_pdf] (lines 50 to 76) *)

Section Extraction.

Variable unicode_alnum : char → bool.
Variable unicode_space : char → bool.

(** The builtin [hash] on [bytes]. *)
Variable hash : bytes → Z.

(** Lines 56 to 63: [page_text] starts as the empty string and keeps
    it when the reader raises; the [or] turns [None] into it. *)
Definition extract_text (o : extract_outcome) : str :=
  match o with
  | Raised => []
  | Returned r => normalize unicode_alnum unicode_space (default [] r)
  end.

(** Lines 64 and 65. *)
Definition append_text (docx_blocks : list block) (t : str) : list block :=
  match t with
  | [] => docx_blocks
  | _ => docx_blocks ++ [Text t]
  end.

(** Lines 69 to 76, one image; the state is [docx_blocks] and
    [sent_hashes]. *)
Definition append_image (st : list block * gset Z) (img : bytes * string)
  : list block * gset Z :=
  let img_hash := hash img.1 in
  if decide (img_hash ∉ st.2)
  then (st.1 ++ [Image img.1 img.2], st.2 ∪ {[img_hash]})
  else st.

(** One iteration of [for i in range(num_pages)]. *)
Definition extract_page (st : list block * gset Z) (p : page)
  : list block * gset Z :=
  foldl append_image (append_text st.1 (extract_text (page_text p)), st.2)
        (page_images p).

Definition extract_loop (doc : pdf) : list block * gset Z :=
  foldl extract_page ([], ∅) doc.

Definition extract_blocks (doc : pdf) : list block := (extract_loop doc).1.

(** The same loop with every appended block paired with the value of
    the loop variable [i] at the time of the [append]: the page the
    block comes from. *)
Definition append_text_at (i : nat) (tr : list (nat * block)) (t : str) :=
  match t with
  | [] => tr
  | _ => tr ++ [(i, Text t)]
  end.

Definition append_image_at (i : nat) (st : list (nat * block) * gset Z)
    (img : bytes * string) : list (nat * block) * gset Z :=
  let img_hash := hash img.1 in
  if decide (img_hash ∉ st.2)
  then (st.1 ++ [(i, Image img.1 img.2)], st.2 ∪ {[img_hash]})
  else st.

Definition extract_page_at (st : list (nat * block) * gset Z) (ip : nat * page)
  : list (nat * block) * gset Z :=
  foldl (append_image_at ip.1)
        (append_text_at ip.1 st.1 (extract_text (page_text ip.2)), st.2)
        (page_images ip.2).

Definition extract_trace (doc : pdf) : list (nat * block) :=
  (foldl extract_page_at ([], ∅) (imap pair doc)).1.

(** Pages of the text blocks, in the order of the block sequence. *)
Definition text_pages (tr : list (nat * block)) : list nat :=
  (filter (λ ib, is_text ib.2) tr).*1.

End Extraction.

(** ** Delivery: chunks of a text block (lines 84 and 85) *)

Definition CHUNK : nat := 4096.

(** [range(0, n, step)] for [n ≥ 0] and [step > 0]. *)
Definition range_step (n step : nat) : list nat :=
  (λ k, k * step)%nat <$> seq 0 ((n + step - 1) / step)%nat.

(** [[block_val[i:i+4096] for i in range(0, len(block_val), 4096)]]. *)
Definition chunks (block_val : str) : list str :=
  (λ i, take CHUNK (drop i block_val)) <$> range_step (length block_val) CHUNK.

(** ** The document writer *)

(** What the document writer is handed: the text of [add_paragraph]
    or the bytes of the file given to [add_picture].  It raises on a
    text it cannot store (a control character, say) and on bytes it
    does not recognise as an image. *)
Inductive docx_input :=
  | ParagraphText (text : str)
  | ImageFile (data : bytes).

(** The body of a [docx.Document] is a sequence of paragraphs:
    [add_paragraph(text)] appends one holding the text;
    [add_picture(path, width=Inches(w))] appends one and then reads the
    image at [path] into it, so that the paragraph holds the picture,
    or stays empty when reading the image raises. *)
Inductive element :=
  | Paragraph (text : str)
  | Picture (image : bytes) (width_inches : N)
  | EmptyParagraph.

Abbreviation document := (list element).



(** The texts of the [Text] blocks of a sequence, in order. *)
Definition block_texts (l : list block) : list str :=
  omap (λ b, match b with Text t => Some t | Image _ _ => None end) l.

(** ** The world the handlers run in *)

(** A file on disk: an attachment fetched from the transport, given by
    what [fitz.open] and [PdfReader] make of it ([None]: one of them
    raises); raw bytes; or a saved document. *)
Inductive file :=
  | Attachment (parsed : option pdf)
  | RawBytes (data : bytes)
  | Docx (d : document).

Record button := InlineKeyboardButton {
  label : str;
  callback_data : string
}.

Abbreviation keyboard := (list (list button)).

(** What a handler does to the outside, in order: the calls into the
    chat transport, the warnings it logs, and the temporary files it has
    [tempfile] create. *)
Inductive event :=
  | reply_text (text : str)
  | send_message (text : str) (reply_markup : option keyboard)
  | send_photo (photo : bytes)
  | send_document (doc : file) (filename : string)
  | answer
  | edit_message_text (text : str)
  | edit_message_reply_markup (reply_markup : option keyboard)
  | logger_warning
  | NamedTemporaryFile (name : string).

Record world := World {
  user_data : gmap string (list block);
  files : gmap string file;
  log : list event
}.

Definition set_user_data (f : gmap string (list block) → gmap string (list block))
    (w : world) : world :=
  World (f (user_data w)) (files w) (log w).

Definition set_files (f : gmap string file → gmap string file) (w : world) : world :=
  World (user_data w) (f (files w)) (log w).

Definition add_log (e : event) (w : world) : world :=
  World (user_data w) (files w) (log w ++ [e]).

(** A handler step returns a value or raises; an exception nobody
    catches ends the handler and leaves the world as it is then. *)
Inductive result (A : Type) :=
  | Return (a : A)
  | Raise.
Arguments Return {A} a.
Arguments Raise {A}.

Definition M (A : Type) : Type := world → result A * world.

#[global] Instance M_ret : MRet M := λ A a w, (Return a, w).
#[global] Instance M_bind : MBind M := λ A B f m w,
  match m w with
  | (Return a, w') => f a w'
  | (Raise, w') => (Raise, w')
  end.

(** [try: m  except Exception: h]. *)
Definition try_except {A} (m h : M A) : M A := λ w,
  match m w with
  | (Return a, w') => (Return a, w')
  | (Raise, w') => h w'
  end.

Definition emit (e : event) : M unit := λ w, (Return (), add_log e w).

(** [for x in l: s = body(s, x)]. *)
Fixpoint for_fold {A S} (body : S → A → M S) (s : S) (l : list A) : M S :=
  match l with
  | [] => mret s
  | x :: l' => s' ← body s x; for_fold body s' l'
  end.

Definition for_each {A} (body : A → M unit) (l : list A) : M unit :=
  for_fold (λ _ x, body x) () l.

(** The final world and the events a handler added to the log. *)
Definition run {A} (m : M A) (w : world) : world := (m w).2.
Definition outcome {A} (m : M A) (w : world) : result A := (m w).1.
Definition emitted {A} (m : M A) (w : world) : list event :=
  drop (length (log w)) (log (run m w)).

(** The stored block sequence of the session: [user_data.get(key, [])]. *)
Definition KEY : string := "last_pdf_blocks".
Definition stored (w : world) : list block := default [] (user_data w !! KEY).

(** ** Message texts and keyboards (code points of the literals) *)

(* "Привет! Пришли мне PDF — я верну тебе текст и картинки, если они есть." *)
Definition MSG_START : str :=
  [1055; 1088; 1080; 1074; 1077; 1090; 33; 32; 1055; 1088; 1080; 1096; 1083;
   1080; 32; 1084; 1085; 1077; 32; 80; 68; 70; 32; 8212; 32; 1103; 32; 1074;
   1077; 1088; 1085; 1091; 32; 1090; 1077; 1073; 1077; 32; 1090; 1077; 1082;
   1089; 1090; 32; 1080; 32; 1082; 1072; 1088; 1090; 1080; 1085; 1082; 1080;
   44; 32; 1077; 1089; 1083; 1080; 32; 1086; 1085; 1080; 32; 1077; 1089; 1090;
   1100; 46].

(* "⏳ Обрабатываю файл, это может занять несколько секунд..." *)
Definition MSG_PROCESSING : str :=
  [9203; 32; 1054; 1073; 1088; 1072; 1073; 1072; 1090; 1099; 1074; 1072; 1102;
   32; 1092; 1072; 1081; 1083; 44; 32; 1101; 1090; 1086; 32; 1084; 1086; 1078;
   1077; 1090; 32; 1079; 1072; 1085; 1103; 1090; 1100; 32; 1085; 1077; 1089;
   1082; 1086; 1083; 1100; 1082; 1086; 32; 1089; 1077; 1082; 1091; 1085; 1076;
   46; 46; 46].

(* "Это не PDF." *)
Definition MSG_NOT_PDF : str :=
  [1069; 1090; 1086; 32; 1085; 1077; 32; 80; 68; 70; 46].

(* "Ваш текст готов! Выберите действие ниже:" *)
Definition MSG_READY : str :=
  [1042; 1072; 1096; 32; 1090; 1077; 1082; 1089; 1090; 32; 1075; 1086; 1090;
   1086; 1074; 33; 32; 1042; 1099; 1073; 1077; 1088; 1080; 1090; 1077; 32;
   1076; 1077; 1081; 1089; 1090; 1074; 1080; 1077; 32; 1085; 1080; 1078; 1077;
   58].

(* "Нет данных для генерации Word." *)
Definition MSG_NO_DATA : str :=
  [1053; 1077; 1090; 32; 1076; 1072; 1085; 1085; 1099; 1093; 32; 1076; 1083;
   1103; 32; 1075; 1077; 1085; 1077; 1088; 1072; 1094; 1080; 1080; 32; 87;
   111; 114; 100; 46].

(* "🔄 Пришлите новый PDF-файл сюда." *)
Definition MSG_SEND_NEW : str :=
  [128260; 32; 1055; 1088; 1080; 1096; 1083; 1080; 1090; 1077; 32; 1085; 1086;
   1074; 1099; 1081; 32; 80; 68; 70; 45; 1092; 1072; 1081; 1083; 32; 1089;
   1102; 1076; 1072; 46].

(* "📥 Скачать в Word" *)
Definition BTN_DOWNLOAD : button :=
  InlineKeyboardButton
    [128229; 32; 1057; 1082; 1072; 1095; 1072; 1090; 1100; 32; 1074; 32; 87;
     111; 114; 100]
    "download_word".

(* "🔄 Загрузить ещё PDF-файл" *)
Definition BTN_START_OVER : button :=
  InlineKeyboardButton
    [128260; 32; 1047; 1072; 1075; 1088; 1091; 1079; 1080; 1090; 1100; 32;
     1077; 1097; 1105; 32; 80; 68; 70; 45; 1092; 1072; 1081; 1083]
    "start_over".

(** ** The handlers *)

(** [update.message.document]: the MIME type and file name the sender
    declares, and the attachment behind [file_id]. *)
Record upload := Upload {
  mime_type : string;
  file_name : string;
  attachment : option pdf
}.

Definition OUT_PATH : string := "/tmp/output.docx".

Section Handlers.

Variable unicode_alnum : char → bool.
Variable unicode_space : char → bool.
Variable hash : bytes → Z.

(** The random part of the name [tempfile] picks, from the names on
    disk and the suffix. *)
Variable mktemp : gset string → string → string.

(** Whether the document writer takes what it is handed:
    [add_paragraph] raises on a text it does not take, [add_picture] on
    bytes it does not recognise as an image. *)
Variable docx_accepts : docx_input → bool.

(** Whether the transport takes the attachment ([send_document] raises
    when it does not). *)
Variable transport_accepts : file → bool.

(** [start]. *)
Definition start : M unit := emit (reply_text MSG_START).

(** Lines 82 to 91, one block. *)
Definition deliver_block (b : block) : M unit :=
  match b with
  | Text block_val =>
      for_each (λ chunk, emit (send_message chunk None)) (chunks block_val)
  | Image img_bytes _ => emit (send_photo img_bytes)
  end.

(** [new_file.download_to_drive(file_path)]. *)
Definition download_to_drive (u : upload) (file_path : string) : M unit := λ w,
  (Return (), set_files <[file_path := Attachment (attachment u)]> w).

(** [fitz.open(file_path)] and [PdfReader(file_path)]. *)
Definition open_pdf (file_path : string) : M pdf := λ w,
  match files w !! file_path with
  | Some (Attachment (Some doc)) => (Return doc, w)
  | _ => (Raise, w)
  end.

(** [context.user_data['last_pdf_blocks'] = docx_blocks]. *)
Definition store_blocks (docx_blocks : list block) : M unit := λ w,
  (Return (), set_user_data <[KEY := docx_blocks]> w).

(** [context.user_data.get('last_pdf_blocks', [])]. *)
Definition get_blocks : M (list block) := λ w, (Return (stored w), w).

(** [context.user_data.pop('last_pdf_blocks', None)]. *)
Definition pop_blocks : M unit := λ w,
  (Return (), set_user_data (delete KEY) w).

(** [handle_pdf] (lines 32 to 102). *)
Definition handle_pdf (u : upload) : M unit :=
  emit (reply_text MSG_PROCESSING);;
  if decide (mime_type u ≠ "application/pdf") then
    emit (send_message MSG_NOT_PDF None)
  else
    let file_path := "/tmp/" +:+ file_name u in
    download_to_drive u file_path;;
    pdf_doc ← open_pdf file_path;
    let docx_blocks := extract_blocks unicode_alnum unicode_space hash pdf_doc in
    store_blocks docx_blocks;;
    for_each deliver_block docx_blocks;;
    emit (send_message MSG_READY (Some [[BTN_DOWNLOAD]; [BTN_START_OVER]])).

(** The name of a temporary file: in the temporary directory (taken to
    be [/tmp], where the code puts its own files), [tmp], the random
    part, the suffix. *)
Definition temp_name (used : gset string) (suffix : string) : string :=
  "/tmp/tmp" +:+ mktemp used suffix +:+ suffix.

(** [tempfile.NamedTemporaryFile(delete=False, suffix=suffix)]: a new
    empty file under the picked name. *)
Definition open_temp (suffix : string) : M string := λ w,
  let name := temp_name (dom (files w)) suffix in
  (Return name,
   add_log (NamedTemporaryFile name) (set_files <[name := RawBytes []]> w)).

(** [tmp_img.write(img_bytes); tmp_img.flush()] on the new file. *)
Definition write_flush (name : string) (data : bytes) : M unit := λ w,
  (Return (), set_files <[name := RawBytes data]> w).

(** [doc.add_paragraph(text)]. *)
Definition add_paragraph (doc : document) (text : str) : M document := λ w,
  if docx_accepts (ParagraphText text) then (Return (doc ++ [Paragraph text]), w)
  else (Raise, w).

(** [doc.add_picture(path, width=Inches(width))], when it returns: the
    new paragraph holds the picture. *)
Definition add_picture (doc : document) (path : string) (width : N)
  : M document := λ w,
  match files w !! path with
  | Some (RawBytes data) =>
      if docx_accepts (ImageFile data) then (Return (doc ++ [Picture data width]), w)
      else (Raise, w)
  | _ => (Raise, w)
  end.

(** [doc] after an [add_picture] that raised: the document is one
    object, and the paragraph appended before the image was read is
    still in it. *)
Definition after_failed_picture (doc : document) : document :=
  doc ++ [EmptyParagraph].

(** Lines 113 to 124, one block.  [add_paragraph] stands outside any
    [try]: when it raises, the handler ends.  Leaving the [with] closes
    the temporary file; it was opened with [delete=False], and nothing
    removes it. *)
Definition assemble_block (doc : document) (b : block) : M document :=
  match b with
  | Text block_val => add_paragraph doc block_val
  | Image img_bytes ext =>
      tmp_img ← open_temp ("." +:+ ext);
      write_flush tmp_img img_bytes;;
      try_except (add_picture doc tmp_img 5)
                 (emit logger_warning;; mret (after_failed_picture doc))
  end.

(** Lines 112 to 124. *)
Definition assemble (docx_blocks : list block) : M document :=
  for_fold assemble_block [] docx_blocks.

(** [doc.save(out_path)]. *)
Definition save (doc : document) (out_path : string) : M unit := λ w,
  (Return (), set_files <[out_path := Docx doc]> w).

(** [open(out_path, 'rb')]. *)
Definition open_rb (path : string) : M file := λ w,
  match files w !! path with
  | Some f => (Return f, w)
  | None => (Raise, w)
  end.

(** [context.bot.send_document(document=f, filename=filename)]. *)
Definition bot_send_document (f : file) (filename : string) : M unit := λ w,
  if transport_accepts f then (Return (), add_log (send_document f filename) w)
  else (Raise, w).

(** [download_word_callback] (lines 104 to 138). *)
Definition download_word_callback : M unit :=
  emit answer;;
  docx_blocks ← get_blocks;
  match docx_blocks with
  | [] => emit (edit_message_text MSG_NO_DATA)
  | _ =>
      doc ← assemble docx_blocks;
      save doc OUT_PATH;;
      f ← open_rb OUT_PATH;
      bot_send_document f "converted.docx";;
      emit (edit_message_reply_markup (Some [[BTN_START_OVER]]))
  end.

(** [start_over_callback] (lines 140 to 148). *)
Definition start_over_callback : M unit :=
  emit answer;;
  pop_blocks;;
  emit (edit_message_reply_markup None);;
  emit (send_message MSG_SEND_NEW None).

End Handlers.

(** The documents a handler sent, with their attachment names. *)
Definition sent_documents (l : list event) : list (file * string) :=
  omap (λ e, match e with send_document f n => Some (f, n) | _ => None end) l.

(** The temporary files a handler had created. *)
Definition temp_files (l : list event) : list string :=
  omap (λ e, match e with NamedTemporaryFile n => Some n | _ => None end) l.

(** ** Reference functions

    Closed forms that the loops above are compared with. *)

(** Every run of two or more spaces becomes a single space: a space
    that follows a space is dropped.  [prev] tells whether the previous
    character was a space. *)
Fixpoint squeeze (prev : bool) (s : str) : str :=
  match s with
  | [] => []
  | c :: t =>
      if prev && (c =? SPACE) then squeeze true t
      else c :: squeeze (c =? SPACE) t
  end.

(** No two adjacent spaces. *)
Fixpoint single_spaced (s : str) : Prop :=
  match s with
  | c :: (d :: _) as t => ¬ (c = SPACE ∧ d = SPACE) ∧ single_spaced t
  | _ => True
  end.

Section Reference.

Variable unicode_alnum : char → bool.
Variable unicode_space : char → bool.
Variable hash : bytes → Z.
Variable mktemp : gset string → string → string.
Variable docx_accepts : docx_input → bool.

(** Neither end is white space. *)
Definition trimmed (s : str) : Prop :=
  (∀ c, head s = Some c → is_space unicode_space c = false) ∧
  (∀ c, last s = Some c → is_space unicode_space c = false).

Definition hashes (imgs : list (bytes * string)) : gset Z :=
  list_to_set ((λ img, hash img.1) <$> imgs).

(** The images whose hash is neither in [sent] nor the hash of an
    earlier image of the list. *)
Fixpoint first_seen (sent : gset Z) (imgs : list (bytes * string))
  : list (bytes * string) :=
  match imgs with
  | [] => []
  | img :: rest =>
      if decide (hash img.1 ∉ sent)
      then img :: first_seen (sent ∪ {[hash img.1]}) rest
      else first_seen sent rest
  end.

Definition text_part (p : page) : list block :=
  match extract_text unicode_alnum unicode_space (page_text p) with
  | [] => []
  | t => [Text t]
  end.

(** What one page appends, given the hashes seen so far. *)
Definition page_part (sent : gset Z) (p : page) : list block :=
  text_part p ++ ((λ img, Image img.1 img.2) <$> first_seen sent (page_images p)).

Fixpoint blocks_from (sent : gset Z) (doc : pdf) : list block :=
  match doc with
  | [] => []
  | p :: rest =>
      page_part sent p ++ blocks_from (sent ∪ hashes (page_images p)) rest
  end.

Fixpoint trace_from (i : nat) (sent : gset Z) (doc : pdf) : list (nat * block) :=
  match doc with
  | [] => []
  | p :: rest =>
      (pair i <$> page_part sent p)
      ++ trace_from (S i) (sent ∪ hashes (page_images p)) rest
  end.

(** How many [Image] blocks carry the bytes [c]. *)
Definition count_image (c : bytes) (l : list block) : nat :=
  length (filter (λ b, has_bytes c b) l).

(** How many images of the document have the bytes [c]. *)
Definition occurrences (c : bytes) (doc : pdf) : nat :=
  length (filter (λ img, img.1 = c) (all_images doc)).

(** The body [assemble] builds when it runs through: one paragraph for
    each block. *)
Definition built_element (b : block) : list element :=
  match b with
  | Text t => [Paragraph t]
  | Image img _ =>
      if docx_accepts (ImageFile img) then [Picture img 5] else [EmptyParagraph]
  end.

Definition built (l : list block) : document := flat_map built_element l.

(** The document writer takes every text of the sequence. *)
Definition writable (l : list block) : Prop :=
  Forall (λ t, docx_accepts (ParagraphText t) = true) (block_texts l).

#[global] Instance writable_dec l : Decision (writable l).
Proof. unfold writable. apply _. Defined.

(** The blocks [assemble] gets through: all of them, or those before
    the first text the document writer refuses. *)
Fixpoint reached (l : list block) : list block :=
  match l with
  | [] => []
  | Text t :: rest =>
      if docx_accepts (ParagraphText t) then Text t :: reached rest else []
  | Image img ext :: rest => Image img ext :: reached rest
  end.

(** The files and the events [assemble] leaves behind on the blocks it
    gets through. *)
Fixpoint assembled_files (fs : gmap string file) (l : list block)
  : gmap string file :=
  match l with
  | [] => fs
  | Text _ :: rest => assembled_files fs rest
  | Image img ext :: rest =>
      assembled_files
        (<[temp_name mktemp (dom fs) ("." +:+ ext) := RawBytes img]> fs) rest
  end.

Fixpoint assembled_events (fs : gmap string file) (l : list block)
  : list event :=
  match l with
  | [] => []
  | Text _ :: rest => assembled_events fs rest
  | Image img ext :: rest =>
      let name := temp_name mktemp (dom fs) ("." +:+ ext) in
      NamedTemporaryFile name
      :: (if docx_accepts (ImageFile img) then [] else [logger_warning])
      ++ assembled_events (<[name := RawBytes img]> fs) rest
  end.

End Reference.

(** The transport calls that deliver a block sequence. *)
Definition block_events (b : block) : list event :=
  match b with
  | Text t => (λ chunk, send_message chunk None) <$> chunks t
  | Image img _ => [send_photo img]
  end.

Definition add_logs (l : list event) (w : world) : world :=
  World (user_data w) (files w) (log w ++ l).

(** ** Sample inputs *)

(* "exam-\nple", "example", "exam", "ple" *)
Definition s_exam_ple : str := [101; 120; 97; 109; 45; 10; 112; 108; 101].
Definition s_example : str := [101; 120; 97; 109; 112; 108; 101].
Definition s_ple : str := [112; 108; 101].



(** No code point above ASCII is alphanumeric or white space: enough
    for ASCII samples. *)
Definition no_unicode : char → bool := λ _, false.

(** A 64-bit hash that is easy to collide: the sum of the bytes. *)
Definition byte_sum_hash (b : bytes) : Z :=
  (foldr (λ x acc, Z.of_N (Byte.to_N x) + acc) 0 b mod 2 ^ 64)%Z.

Definition img_a : bytes := [Byte.x01; Byte.x02].
Definition img_b : bytes := [Byte.x02; Byte.x01].
Definition img_c : bytes := [Byte.x07].

(** Two pages; [img_b] is on both, after [img_a], which has the same
    byte sum. *)
Definition doc_collision : pdf :=
  [Page Raised [(img_a, "png"); (img_b, "png")]; Page Raised [(img_b, "png")]].

(** Three pages; [img_c] is on the last two, and no two images share a
    byte sum. *)
Definition doc_pre : pdf := [Page (Returned (Some s_exam_ple)) [(img_a, "png")]].
Definition page_mid : page := Page Raised [(img_c, "jpeg"); (img_a, "png")].
Definition doc_post : pdf := [Page (Returned None) [(img_c, "jpeg")]].

(** A name picker that counts the files on disk: the random part of
    the name is one underscore for each of them. *)
Fixpoint underscores (n : nat) : string :=
  match n with
  | O => EmptyString
  | S k => "_" +:+ underscores k
  end.

Definition counting_mktemp (used : gset string) (suffix : string) : string :=
  underscores (size used).

Definition accept_all {A} : A → bool := λ _, true.
Definition accept_none {A} : A → bool := λ _, false.

Definition empty_world : world := World ∅ ∅ [].

(** A session that holds one image block. *)
Definition world_one_image : world := World {[KEY := [Image img_a "png"]]} ∅ [].

(** A session that holds a text and an image. *)
Definition world_text_image : world :=
  World {[KEY := [Text s_example; Image img_a "png"]]} ∅ [].

(* " \n\t " *)
Definition s_blank : str := [32; 10; 9; 32].

(** Two pages with a text each, the first with an image. *)
Definition doc_two_texts : pdf :=
  [Page (Returned (Some s_exam_ple)) [(img_a, "png")];
   Page (Returned (Some s_ple)) []].

(** Two pages with nothing to extract. *)
Definition doc_blank : pdf := [Page Raised []; Page (Returned (Some s_blank)) []].

(** The characters an XML document can hold. *)
Definition xml_char (c : char) : bool :=
  (c =? 9) || (c =? 10) || (c =? 13) || ((32 <=? c) && (c <=? 55295))
  || ((57344 <=? c) && (c <=? 65533)) || ((65536 <=? c) && (c <=? 1114111)).

(** A document writer that takes every image and every text an XML
    document can hold, and raises on a text with any other character,
    as the writer the code imports does ([ValueError]). *)
Definition xml_writer (i : docx_input) : bool :=
  match i with
  | ParagraphText t => forallb xml_char t
  | ImageFile _ => true
  end.

(* "a\x01b" *)
Definition s_control : str := [97; 1; 98].


(** A session that holds an image and then a text with a control
    character. *)
Definition world_image_control : world :=
  World {[KEY := [Image img_a "png"; Text s_control]]} ∅ [].

(** ** Start-up: [main] (lines 150 to 178) *)

(* "TELEGRAM_BOT_TOKEN не задан" *)
Definition ERR_NO_TOKEN : str :=
  [84; 69; 76; 69; 71; 82; 65; 77; 95; 66; 79; 84; 95; 84; 79; 75; 69; 78; 32;
   1085; 1077; 32; 1079; 1072; 1076; 1072; 1085].

(* "RENDER_EXTERNAL_URL не задан" *)
Definition ERR_NO_HOST : str :=
  [82; 69; 78; 68; 69; 82; 95; 69; 88; 84; 69; 82; 78; 65; 76; 95; 85; 82; 76;
   32; 1085; 1077; 32; 1079; 1072; 1076; 1072; 1085].

(** The four callbacks [main] registers. *)
Inductive callback :=
  | cb_start
  | cb_handle_pdf
  | cb_download_word_callback
  | cb_start_over_callback.

#[global] Instance callback_eq_dec : EqDecision callback.
Proof. solve_decision. Defined.

(** The handlers as [main] builds them. *)
Inductive handler :=
  | CommandHandler (command : string) (cb : callback)
  | MessageHandler_Document_ALL (cb : callback)
  | CallbackQueryHandler (cb : callback) (pattern : string).

(** What [main] does, in order. *)
Inductive startup_event :=
  | logger_error (msg : str)
  | build (token : string)
  | add_handler (h : handler)
  | run_webhook (listen : string) (port : Z) (url_path webhook_url : string).

(** Truth value of what [os.getenv] returns: [None] and the empty
    string are false. *)
Definition truthy (v : option string) : bool :=
  match v with
  | None => false
  | Some EmptyString => false
  | Some _ => true
  end.

Definition HANDLERS : list handler :=
  [CommandHandler "start" cb_start;
   MessageHandler_Document_ALL cb_handle_pdf;
   CallbackQueryHandler cb_download_word_callback "download_word";
   CallbackQueryHandler cb_start_over_callback "start_over"].

Section Main.

(** The builtin [int] on a string: [None] when it raises [ValueError]. *)
Variable int_of_string : string → option Z.

(** [int(os.getenv('PORT', 5000))]. *)
Definition port_of (environ : gmap string string) : option Z :=
  match environ !! "PORT" with
  | None => Some 5000%Z
  | Some p => int_of_string p
  end.

(** [main], on the process environment. *)
Definition main (environ : gmap string string) : list startup_event * result () :=
  let token := environ !! "TELEGRAM_BOT_TOKEN" in
  if negb (truthy token) then ([logger_error ERR_NO_TOKEN], Return ())
  else
    let token := default EmptyString token in
    let app := build token :: (add_handler <$> HANDLERS) in
    let host := environ !! "RENDER_EXTERNAL_URL" in
    if negb (truthy host) then (app ++ [logger_error ERR_NO_HOST], Return ())
    else
      let host := default EmptyString host in
      match port_of environ with
      | None => (app, Raise)
      | Some port =>
          let webhook_url := host +:+ "/" +:+ token in
          (app ++ [run_webhook "0.0.0.0" port token webhook_url], Return ())
      end.

End Main.

(** The webhooks a start-up opened. *)
Definition webhooks (l : list startup_event) : list (string * Z * string * string) :=
  omap (λ e, match e with
             | run_webhook l p u w => Some (l, p, u, w)
             | _ => None
             end) l.



(** [re.match(pattern, data)] for a pattern made of letters and
    underscores only, as both patterns of [main] are: [data] starts with
    [pattern]. *)
Definition matches (pattern data : string) : bool := String.prefix pattern data.

(** The callbacks whose [CallbackQueryHandler] takes a button press
    carrying [data]. *)
Definition callbacks_for (data : string) (hs : list handler) : list callback :=
  omap (λ h, match h with
             | CallbackQueryHandler cb pattern =>
                 if matches pattern data then Some cb else None
             | _ => None
             end) hs.

(** ** Projections of block sequences, logs and documents *)

(** The images of the [Image] blocks, in order. *)
Definition block_images (l : list block) : list (bytes * string) :=
  omap (λ b, match b with Image img ext => Some (img, ext) | Text _ => None end) l.

(** The photos sent, in order. *)
Definition sent_photos (l : list event) : list bytes :=
  omap (λ e, match e with send_photo b => Some b | _ => None end) l.

(** The texts of the messages sent without a keyboard, in order. *)
Definition plain_messages (l : list event) : list str :=
  omap (λ e, match e with send_message t None => Some t | _ => None end) l.

(** The keyboards shown, in order. *)
Definition keyboards (l : list event) : list keyboard :=
  omap (λ e, match e with
             | send_message _ (Some k) => Some k
             | edit_message_reply_markup (Some k) => Some k
             | _ => None
             end) l.

(** How many warnings were logged. *)
Definition warnings (l : list event) : nat :=
  length (omap (λ e, match e with logger_warning => Some () | _ => None end) l).

(** The pictures of a document, with their widths, in body order. *)
Definition pictures (d : document) : list (bytes * N) :=
  omap (λ e, match e with Picture img w => Some (img, w) | _ => None end) d.

(** How many paragraphs of a document were left empty by a picture that
    could not be read. *)
Definition empty_paragraphs (d : document) : nat :=
  length (omap (λ e, match e with EmptyParagraph => Some () | _ => None end) d).

Section PageTexts.

Variable ua us : char → bool.

(** The non-empty normalized page texts, in page order. *)
Definition page_texts (doc : pdf) : list str :=
  filter (λ t, t ≠ []) ((λ p, extract_text ua us (page_text p)) <$> doc).

End PageTexts.

(** * Properties *)

(** ** The monad and the log *)

Lemma emitted_app {A} (m : M A) w evs :
  log (run m w) = log w ++ evs → emitted m w = evs.
Proof. unfold emitted. intros ->. by rewrite drop_app_length. Qed.

Lemma add_logs_nil w : add_logs [] w = w.
Proof. destruct w. unfold add_logs. simpl. by rewrite app_nil_r. Qed.

Lemma add_logs_app l1 l2 w : add_logs l2 (add_logs l1 w) = add_logs (l1 ++ l2) w.
Proof. unfold add_logs. simpl. by rewrite app_assoc. Qed.

Lemma add_log_logs e w : add_log e w = add_logs [e] w.
Proof. done. Qed.

Lemma for_each_emit {A} (f : A → event) (l : list A) w :
  for_each (λ x, emit (f x)) l w = (Return (), add_logs (f <$> l) w).
Proof.
  unfold for_each. revert w. induction l as [|x l IH]; intros w; simpl.
  - by rewrite add_logs_nil.
  - unfold mbind, M_bind, emit. simpl. rewrite IH, add_log_logs, add_logs_app. done.
Qed.

(** ** Chunks *)

Lemma range_step_0 step : range_step 0 step = [].
Proof.
  unfold range_step. destruct step as [|k]; [done|].
  replace (0 + S k - 1)%nat with k by lia. by rewrite Nat.div_small by lia.
Qed.

Lemma range_step_pos n step :
  (0 < n)%nat → (0 < step)%nat →
  range_step n step = 0%nat :: ((λ i, step + i)%nat <$> range_step (n - step) step).
Proof.
  intros Hn Hs. unfold range_step.
  assert ((n + step - 1) / step = S ((n - step + step - 1) / step))%nat as ->.
  { destruct (decide (step ≤ n)%nat).
    - replace (n + step - 1)%nat with ((n - step + step - 1) + 1 * step)%nat by lia.
      rewrite Nat.div_add by lia. lia.
    - replace (n - step + step - 1)%nat with (step - 1)%nat by lia.
      rewrite (Nat.div_small (step - 1)) by lia.
      replace (n + step - 1)%nat with ((n - 1) + 1 * step)%nat by lia.
      rewrite Nat.div_add by lia. rewrite Nat.div_small by lia. done. }
  rewrite <- cons_seq, <- fmap_S_seq. simpl. f_equal.
  rewrite <- !list_fmap_compose. apply list_fmap_ext. intros _ k _. simpl. lia.
Qed.

Lemma chunks_nil : chunks [] = [].
Proof. unfold chunks. change (length (@nil char)) with 0%nat. by rewrite range_step_0. Qed.

Lemma chunks_cons (s : str) :
  s ≠ [] → chunks s = take CHUNK s :: chunks (drop CHUNK s).
Proof.
  intros Hs. unfold chunks.
  rewrite range_step_pos; [|destruct s; [done|simpl; lia]|unfold CHUNK; lia].
  simpl. f_equal. rewrite length_drop, <- list_fmap_compose.
  apply list_fmap_ext. intros _ i _. simpl. by rewrite drop_drop.
Qed.

Lemma chunks_ind (P : str → Prop) :
  P [] → (∀ s, s ≠ [] → P (drop CHUNK s) → P s) → ∀ s, P s.
Proof.
  intros H0 Hstep s.
  induction s as [s IH] using (induction_ltof1 _ (@length char)). unfold ltof in IH.
  destruct (decide (s = [])) as [->|Hs]; [done|].
  apply Hstep; [done|]. apply IH. rewrite length_drop.
  destruct s; [done|]. simpl. unfold CHUNK. lia.
Qed.

Lemma chunks_concat (s : str) : concat (chunks s) = s.
Proof.
  induction s as [|s Hs IH] using chunks_ind.
  - by rewrite chunks_nil.
  - rewrite chunks_cons by done. simpl. rewrite IH. apply take_drop.
Qed.

Lemma chunks_bounds (s : str) :
  Forall (λ c, (0 < length c ≤ 4096)%nat) (chunks s).
Proof.
  induction s as [|s Hs IH] using chunks_ind.
  - rewrite chunks_nil. constructor.
  - rewrite chunks_cons by done. constructor; [|done].
    rewrite length_take. unfold CHUNK. destruct s; [done|]. simpl length. lia.
Qed.

Lemma chunks_lengths_10000 (s : str) :
  Z.of_nat (length s) = 10000%Z → length <$> chunks s = [4096; 4096; 1808]%nat.
Proof.
  intros Hlen.
  assert (∀ t : str, (0 < length t)%nat → t ≠ []) as Hne
    by (intros [|] ?; simpl in *; [lia|done]).
  assert (∀ t : str, length t = 0%nat → t = []) as Hnil
    by (intros [|] ?; simpl in *; [done|lia]).
  pose proof (length_drop s CHUNK) as L1.
  pose proof (length_drop (drop CHUNK s) CHUNK) as L2.
  pose proof (length_drop (drop CHUNK (drop CHUNK s)) CHUNK) as L3.
  assert (Z.of_nat CHUNK = 4096%Z) as HC by done.
  rewrite (chunks_cons s) by (apply Hne; lia).
  rewrite (chunks_cons (drop CHUNK s)) by (apply Hne; lia).
  rewrite (chunks_cons (drop CHUNK (drop CHUNK s))) by (apply Hne; lia).
  rewrite (Hnil (drop CHUNK (drop CHUNK (drop CHUNK s)))) by lia.
  rewrite chunks_nil. simpl. rewrite !length_take.
  f_equal; [|f_equal; [|f_equal]].
  - apply Nat2Z.inj. change (Z.of_nat 4096) with 4096%Z. lia.
  - apply Nat2Z.inj. change (Z.of_nat 4096) with 4096%Z. lia.
  - apply Nat2Z.inj. change (Z.of_nat 1808) with 1808%Z. lia.
Qed.

Lemma deliver_block_events (b : block) w :
  deliver_block b w = (Return (), add_logs (block_events b) w).
Proof.
  destruct b as [t|img e]; simpl.
  - apply for_each_emit.
  - done.
Qed.

(** C2. Delivery cuts a text block into consecutive non-empty chunks of
    at most 4096 characters whose concatenation is the text, and sends
    them in that order, one [send_message] each; a text of 10,000
    characters goes out as chunks of 4096, 4096 and 1808 characters. *)
Theorem C2_text_chunks (block_val : str) (w : world) :
  Forall (λ c, (0 < length c ≤ 4096)%nat) (chunks block_val) ∧
  concat (chunks block_val) = block_val ∧
  deliver_block (Text block_val) w
    = (Return (), add_logs ((λ c, send_message c None) <$> chunks block_val) w) ∧
  (Z.of_nat (length block_val) = 10000%Z →
   length <$> chunks block_val = [4096; 4096; 1808]%nat).
Proof.
  split_and!.
  - apply chunks_bounds.
  - apply chunks_concat.
  - apply (deliver_block_events (Text block_val)).
  - apply chunks_lengths_10000.
Qed.

Lemma C2_text_chunks_witness :
  Z.of_nat (length (replicate (Z.to_nat 10000) (65 : char))) = 10000%Z ∧
  length <$> chunks (replicate (Z.to_nat 10000) (65 : char)) = [4096; 4096; 1808]%nat.
Proof.
  assert (Z.of_nat (length (replicate (Z.to_nat 10000) (65 : char))) = 10000%Z) as H
    by (vm_compute; reflexivity).
  split; [exact H|].
  exact (proj2 (proj2 (proj2 (C2_text_chunks _ (World ∅ ∅ [])))) H).
Defined.

(** ** Normalization of a page's text *)

Section TextFacts.

Variable ua us : char → bool.









Lemma replace_nl_no_newline s : NL ∉ replace_nl s.
Proof.
  unfold replace_nl. intros (c & Hc & _)%list_elem_of_fmap.
  destruct (N.eqb_spec c NL); [done|congruence].
Qed.

Lemma squeeze_drop_spaces t : squeeze true t = squeeze false (drop_spaces t).
Proof.
  induction t as [|c t IH]; [done|]. simpl.
  destruct (c =? SPACE) eqn:Hc; [done|]. simpl. by rewrite Hc.
Qed.

(** The greedy substitution is the squeeze. *)
Lemma collapse_spaces_squeeze s : collapse_spaces s = squeeze false s.
Proof.
  funelim (collapse_spaces s); simp collapse_spaces; try done.
  - apply andb_true_iff in Heq as [Hc Hd].
    apply N.eqb_eq in Hc as ->. simpl. rewrite Hd.
    rewrite squeeze_drop_spaces. f_equal. done.
  - match goal with IH : collapse_spaces _ = _ |- _ => rewrite IH end.
    simpl. destruct (c =? SPACE) eqn:Hc; [|done].
    simpl in Heq. by rewrite Heq.
Qed.

Lemma squeeze_elem p s c : c ∈ squeeze p s → c ∈ s.
Proof.
  revert p. induction s as [|d t IH]; intros p; simpl; [done|].
  destruct (p && (d =? SPACE)).
  - intros ?%IH. by right.
  - intros [->|?%IH]%elem_of_cons; [left|by right].
Qed.

Lemma squeeze_single_spaced p s :
  single_spaced (squeeze p s) ∧
  (p = true → ∀ c, head (squeeze p s) = Some c → c ≠ SPACE).
Proof.
  revert p. induction s as [|c t IH]; intros p; simpl; [done|].
  destruct (p && (c =? SPACE)) eqn:Hpc.
  - destruct (IH true) as [H1 H2]. split; [done|]. intros _. by apply H2.
  - destruct (IH (c =? SPACE)) as [H1 H2]. split.
    + destruct (squeeze (c =? SPACE) t) as [|d X] eqn:HX; [done|].
      split; [|done]. intros [-> ->]. by eapply (H2 eq_refl SPACE).
    + intros -> d [= <-] ->. done.
Qed.

Lemma single_spaced_app l1 l2 :
  single_spaced (l1 ++ l2) → single_spaced l1 ∧ single_spaced l2.
Proof.
  induction l1 as [|c l1 IH]; [done|].
  destruct l1 as [|d l1].
  - simpl. destruct l2; [done|]. intros [_ ?]. done.
  - intros [H1 H2]. destruct (IH H2) as [H3 H4]. done.
Qed.

Lemma drop_while_split p s :
  ∃ l, s = l ++ drop_while p s ∧ Forall (λ c, p c = true) l.
Proof.
  induction s as [|c t (l & Hl & Hp)]; [by exists []|]. simpl.
  destruct (p c) eqn:Hc.
  - exists (c :: l). split; [by rewrite Hl at 1|by constructor].
  - by exists [].
Qed.

Lemma drop_while_head p s c : head (drop_while p s) = Some c → p c = false.
Proof.
  induction s as [|d t IH]; [done|]. simpl.
  destruct (p d) eqn:Hd; [done|]. by intros [= <-].
Qed.

(** [strip] removes a run of white space at each end and leaves no
    white space at either end. *)
Lemma strip_split s :
  ∃ l r, s = l ++ strip us s ++ r ∧
         Forall (λ c, is_space us c = true) l ∧ Forall (λ c, is_space us c = true) r.
Proof.
  unfold strip, rstrip, lstrip.
  destruct (drop_while_split (is_space us) s) as (l & Hl & Hpl).
  destruct (drop_while_split (is_space us) (reverse (drop_while (is_space us) s)))
    as (r & Hr & Hpr).
  exists l, (reverse r). split_and!; [|done|by apply Forall_reverse].
  rewrite <- reverse_app, <- Hr, reverse_involutive. done.
Qed.

Lemma strip_trimmed s : trimmed us (strip us s).
Proof.
  unfold trimmed, strip, rstrip, lstrip. split; intros c Hc.
  - destruct (drop_while_split (is_space us) (reverse (drop_while (is_space us) s)))
      as (r & Hr & Hpr).
    apply (f_equal reverse) in Hr. rewrite reverse_involutive, reverse_app in Hr.
    apply (drop_while_head (is_space us) s). rewrite Hr.
    apply head_app_Some. by left.
  - rewrite last_reverse in Hc. by apply drop_while_head in Hc.
Qed.

Lemma normalize_steps s :
  normalize ua us s = strip us (squeeze false (replace_nl (join_hyphen ua s))).
Proof. unfold normalize. by rewrite collapse_spaces_squeeze. Qed.

Lemma normalize_no_newline s : NL ∉ normalize ua us s.
Proof.
  rewrite normalize_steps. intros Hin.
  destruct (strip_split (squeeze false (replace_nl (join_hyphen ua s))))
    as (l & r & Heq & _).
  apply (replace_nl_no_newline (join_hyphen ua s)), (squeeze_elem false).
  rewrite Heq. set_solver.
Qed.

Lemma normalize_single_spaced s : single_spaced (normalize ua us s).
Proof.
  rewrite normalize_steps.
  destruct (strip_split (squeeze false (replace_nl (join_hyphen ua s))))
    as (l & r & Heq & _).
  pose proof (squeeze_single_spaced false (replace_nl (join_hyphen ua s))) as [H _].
  rewrite Heq in H.
  apply single_spaced_app in H as [_ H]. by apply single_spaced_app in H as [H _].
Qed.

End TextFacts.

(** ** The extraction loop in closed form *)

Section ExtractionFacts.

Variable ua us : char → bool.
Variable hash : bytes → Z.

Lemma hashes_app l1 l2 : hashes hash (l1 ++ l2) = hashes hash l1 ∪ hashes hash l2.
Proof. unfold hashes. rewrite fmap_app. apply list_to_set_app_L. Qed.

Lemma elem_of_hashes h imgs :
  h ∈ hashes hash imgs ↔ ∃ img, img ∈ imgs ∧ h = hash img.1.
Proof.
  unfold hashes. rewrite elem_of_list_to_set, list_elem_of_fmap. naive_solver.
Qed.

Lemma append_image_fold imgs bl sent :
  foldl (append_image hash) (bl, sent) imgs
  = (bl ++ ((λ img, Image img.1 img.2) <$> first_seen hash sent imgs),
     sent ∪ hashes hash imgs).
Proof.
  revert bl sent. induction imgs as [|img imgs IH]; intros bl sent.
  - simpl. rewrite app_nil_r. f_equal. set_solver.
  - cbn [foldl first_seen]. unfold append_image at 2. cbn [fst snd].
    destruct (decide (hash img.1 ∉ sent)) as [Hnew|Hold].
    + rewrite IH. cbn [fmap list_fmap]. rewrite <- app_assoc. f_equal.
      unfold hashes. set_solver.
    + rewrite IH. f_equal. apply dec_stable in Hold.
      unfold hashes. set_solver.
Qed.

Lemma append_text_part bl p :
  append_text bl (extract_text ua us (page_text p)) = bl ++ text_part ua us p.
Proof.
  unfold append_text, text_part.
  destruct (extract_text ua us (page_text p)); [by rewrite app_nil_r|done].
Qed.

Lemma extract_page_closed bl sent p :
  extract_page ua us hash (bl, sent) p
  = (bl ++ page_part ua us hash sent p, sent ∪ hashes hash (page_images p)).
Proof.
  unfold extract_page, page_part. cbn [fst snd].
  by rewrite append_image_fold, append_text_part, app_assoc.
Qed.

Lemma extract_loop_from doc bl sent :
  foldl (extract_page ua us hash) (bl, sent) doc
  = (bl ++ blocks_from ua us hash sent doc,
     sent ∪ hashes hash (all_images doc)).
Proof.
  revert bl sent. induction doc as [|p doc IH]; intros bl sent.
  - simpl. rewrite app_nil_r. f_equal. set_solver.
  - cbn [foldl blocks_from]. rewrite extract_page_closed, IH, <- app_assoc.
    f_equal. unfold all_images. cbn [flat_map]. rewrite hashes_app. set_solver.
Qed.

Lemma extract_blocks_closed doc :
  extract_blocks ua us hash doc = blocks_from ua us hash ∅ doc.
Proof. unfold extract_blocks, extract_loop. by rewrite extract_loop_from. Qed.

(** The indexed loop, and its erasure. *)
Lemma append_image_at_fold i imgs (tr : list (nat * block)) sent :
  foldl (append_image_at hash i) (tr, sent) imgs
  = (tr ++ (pair i <$> ((λ img, Image img.1 img.2) <$> first_seen hash sent imgs)),
     sent ∪ hashes hash imgs).
Proof.
  revert tr sent. induction imgs as [|img imgs IH]; intros tr sent.
  - simpl. rewrite app_nil_r. f_equal. set_solver.
  - cbn [foldl first_seen]. unfold append_image_at at 2. cbn [fst snd].
    destruct (decide (hash img.1 ∉ sent)) as [Hnew|Hold].
    + rewrite IH. cbn [fmap list_fmap]. rewrite <- app_assoc. f_equal.
      unfold hashes. set_solver.
    + rewrite IH. f_equal. apply dec_stable in Hold.
      unfold hashes. set_solver.
Qed.

Lemma extract_page_at_closed (tr : list (nat * block)) sent i p :
  extract_page_at ua us hash (tr, sent) (i, p)
  = (tr ++ (pair i <$> page_part ua us hash sent p),
     sent ∪ hashes hash (page_images p)).
Proof.
  unfold extract_page_at, page_part, append_text_at, text_part. cbn [fst snd].
  rewrite append_image_at_fold, fmap_app.
  destruct (extract_text ua us (page_text p)); simpl.
  - done.
  - by rewrite <- app_assoc.
Qed.

Lemma extract_trace_from doc k (tr : list (nat * block)) sent :
  foldl (extract_page_at ua us hash) (tr, sent) (imap (λ j, pair (k + j)%nat) doc)
  = (tr ++ trace_from ua us hash k sent doc,
     sent ∪ hashes hash (all_images doc)).
Proof.
  revert k tr sent. induction doc as [|p doc IH]; intros k tr sent.
  - simpl. rewrite app_nil_r. f_equal. set_solver.
  - cbn [imap foldl trace_from]. rewrite Nat.add_0_r, extract_page_at_closed.
    rewrite (imap_ext _ (λ j, pair (S k + j)%nat)) by (intros; simpl; f_equal; lia).
    rewrite IH, <- app_assoc. f_equal.
    unfold all_images. cbn [flat_map]. rewrite hashes_app. set_solver.
Qed.

Lemma extract_trace_closed doc :
  extract_trace ua us hash doc = trace_from ua us hash 0 ∅ doc.
Proof.
  unfold extract_trace.
  rewrite (imap_ext _ (λ j, pair (0 + j)%nat)) by done.
  by rewrite extract_trace_from.
Qed.

Lemma trace_from_erase doc k sent :
  (trace_from ua us hash k sent doc).*2 = blocks_from ua us hash sent doc.
Proof.
  revert k sent. induction doc as [|p doc IH]; intros k sent; [done|].
  cbn [trace_from blocks_from]. rewrite fmap_app, IH. f_equal.
  rewrite <- list_fmap_compose. apply list_fmap_id.
Qed.

End ExtractionFacts.

(** ** Text blocks of the extraction *)

Section TextBlocks.

Variable ua us : char → bool.
Variable hash : bytes → Z.

Lemma block_texts_images (imgs : list (bytes * string)) :
  block_texts ((λ img, Image img.1 img.2) <$> imgs) = [].
Proof. induction imgs as [|img imgs IH]; [done|]. simpl. apply IH. Qed.

Lemma block_texts_page_part sent p :
  block_texts (page_part ua us hash sent p)
  = match extract_text ua us (page_text p) with [] => [] | t => [t] end.
Proof.
  unfold page_part, block_texts. rewrite omap_app.
  fold (block_texts ((λ img, Image img.1 img.2) <$> first_seen hash sent (page_images p))).
  rewrite block_texts_images, app_nil_r. unfold text_part.
  by destruct (extract_text ua us (page_text p)).
Qed.

Lemma text_pages_app (tr1 tr2 : list (nat * block)) :
  text_pages (tr1 ++ tr2) = text_pages tr1 ++ text_pages tr2.
Proof. unfold text_pages. by rewrite filter_app, fmap_app. Qed.

Lemma text_pages_images i (imgs : list (bytes * string)) :
  text_pages (pair i <$> ((λ img, Image img.1 img.2) <$> imgs)) = [].
Proof.
  induction imgs as [|img imgs IH]; [done|].
  unfold text_pages in *. cbn [fmap list_fmap].
  rewrite filter_cons_False by (by intros []). done.
Qed.

Lemma text_pages_page_part i sent p :
  text_pages (pair i <$> page_part ua us hash sent p)
  = match extract_text ua us (page_text p) with [] => [] | _ => [i] end.
Proof.
  unfold page_part. rewrite fmap_app, text_pages_app, text_pages_images, app_nil_r.
  unfold text_part. by destruct (extract_text ua us (page_text p)).
Qed.

Lemma text_pages_count (tr : list (nat * block)) :
  length (filter (λ b, is_text b) tr.*2) = length (text_pages tr).
Proof.
  unfold text_pages. rewrite length_fmap.
  induction tr as [|[i b] tr IH]; [done|]. cbn [fmap list_fmap snd].
  destruct (is_text b) eqn:Hb.
  - rewrite !filter_cons_True by (simpl; by rewrite Hb). simpl. by rewrite IH.
  - rewrite !filter_cons_False by (simpl; rewrite Hb; by intros []). done.
Qed.

(** The pages of the text blocks of the pages from [k] on: strictly
    increasing, each the index of a page with a non-empty text. *)
Lemma text_pages_trace_from doc k sent :
  let tp := text_pages (trace_from ua us hash k sent doc) in
  (length tp ≤ length doc)%nat ∧
  StronglySorted lt tp ∧
  Forall (λ i, (k ≤ i)%nat ∧ ∃ p, doc !! (i - k)%nat = Some p ∧
               extract_text ua us (page_text p) ≠ []) tp.
Proof.
  revert k sent. induction doc as [|p doc IH]; intros k sent.
  - simpl. split_and!; [done|constructor|constructor].
  - cbn [trace_from]. cbv zeta. rewrite text_pages_app, text_pages_page_part.
    destruct (IH (S k) (sent ∪ hashes hash (page_images p))) as (Hlen & Hsort & Hall).
    assert (Forall (λ i, (k ≤ i)%nat ∧ ∃ q, (p :: doc) !! (i - k)%nat = Some q ∧
               extract_text ua us (page_text q) ≠ [])
              (text_pages (trace_from ua us hash (S k)
                 (sent ∪ hashes hash (page_images p)) doc))) as Hall'.
    { eapply Forall_impl; [exact Hall|]. intros i (Hi & q & Hq & Hne).
      split; [lia|]. exists q. split; [|done].
      replace (i - k)%nat with (S (i - S k)) by lia. done. }
    destruct (extract_text ua us (page_text p)) as [|c t] eqn:Ht.
    + simpl. split_and!; [lia|done|done].
    + simpl. split_and!; [lia| |].
      * constructor; [done|]. eapply Forall_impl; [exact Hall|].
        intros i (Hi & _). lia.
      * constructor; [|done]. split; [done|]. exists p.
        rewrite Nat.sub_diag. split; [done|]. by rewrite Ht.
Qed.

End TextBlocks.

Section PageText.

Variable ua us : char → bool.
Variable hash : bytes → Z.


(** C4. A document of N pages yields at most N text blocks; the pages
    they come from are strictly increasing along the block sequence
    (so non-decreasing, and at most one text block per page), and each
    is a page whose reader returned a text that normalizes to a
    non-empty string. *)
Theorem C4_text_blocks_per_page (doc : pdf) :
  let tr := extract_trace ua us hash doc in
  tr.*2 = extract_blocks ua us hash doc ∧
  (length (filter (λ b, is_text b) (extract_blocks ua us hash doc))
     ≤ length doc)%nat ∧
  StronglySorted le (text_pages tr) ∧
  StronglySorted lt (text_pages tr) ∧
  Forall (λ i, ∃ p t, doc !! i = Some p ∧
                      page_text p = Returned (Some t) ∧
                      normalize ua us t ≠ []) (text_pages tr).
Proof.
  cbv zeta.
  assert ((extract_trace ua us hash doc).*2 = extract_blocks ua us hash doc) as He
    by (by rewrite extract_trace_closed, trace_from_erase, extract_blocks_closed).
  pose proof (text_pages_trace_from ua us hash doc 0 ∅) as (Hlen & Hsort & Hall).
  rewrite <- extract_trace_closed in Hlen, Hsort, Hall.
  split_and!.
  - done.
  - rewrite <- He, text_pages_count. done.
  - clear -Hsort. induction Hsort as [|i l _ IH Hi]; constructor; [done|].
    eapply Forall_impl; [exact Hi|]. simpl. lia.
  - done.
  - eapply Forall_impl; [exact Hall|]. intros i (_ & p & Hp & Hne).
    rewrite Nat.sub_0_r in Hp. exists p.
    destruct (page_text p) as [|[t|]] eqn:Ht; simpl in Hne; [done| |].
    + by exists t.
    + exfalso. apply Hne. reflexivity.
Qed.

End PageText.

(** ** Image deduplication *)

Section Images.

Variable ua us : char → bool.
Variable hash : bytes → Z.

Lemma first_seen_app sent l1 l2 :
  first_seen hash sent (l1 ++ l2)
  = first_seen hash sent l1 ++ first_seen hash (sent ∪ hashes hash l1) l2.
Proof.
  revert sent. induction l1 as [|img l1 IH]; intros sent.
  - simpl. f_equal. unfold hashes. set_solver.
  - cbn [app first_seen]. destruct (decide (hash img.1 ∉ sent)) as [Hn|Ho].
    + rewrite IH. cbn [app]. do 3 f_equal. unfold hashes. set_solver.
    + rewrite IH. do 2 f_equal. apply dec_stable in Ho. unfold hashes. set_solver.
Qed.

Lemma first_seen_elem sent imgs img :
  img ∈ first_seen hash sent imgs → img ∈ imgs ∧ hash img.1 ∉ sent.
Proof.
  revert sent. induction imgs as [|x imgs IH]; intros sent; simpl; [set_solver|].
  destruct (decide (hash x.1 ∉ sent)).
  - intros [->|Hin]%elem_of_cons; [set_solver|].
    apply IH in Hin as [? ?]. set_solver.
  - intros Hin. apply IH in Hin as [? ?]. set_solver.
Qed.

Lemma blocks_from_app sent d1 d2 :
  blocks_from ua us hash sent (d1 ++ d2)
  = blocks_from ua us hash sent d1
    ++ blocks_from ua us hash (sent ∪ hashes hash (all_images d1)) d2.
Proof.
  revert sent. induction d1 as [|p d1 IH]; intros sent.
  - simpl. f_equal. unfold hashes. set_solver.
  - cbn [app blocks_from]. rewrite IH, <- app_assoc. do 3 f_equal.
    unfold all_images. cbn [flat_map]. rewrite hashes_app. set_solver.
Qed.

Lemma blocks_from_image sent doc b e :
  Image b e ∈ blocks_from ua us hash sent doc →
  (b, e) ∈ all_images doc ∧ hash b ∉ sent.
Proof.
  revert sent. induction doc as [|p doc IH]; intros sent; simpl; [set_solver|].
  unfold all_images. cbn [flat_map]. fold (all_images doc).
  intros [Hin|Hin]%elem_of_app.
  - unfold page_part in Hin. apply elem_of_app in Hin as [Hin|Hin].
    + unfold text_part in Hin.
      destruct (extract_text ua us (page_text p)); set_solver.
    + apply list_elem_of_fmap in Hin as ([b' e'] & [= -> ->] & Hin).
      apply first_seen_elem in Hin as [? ?]. set_solver.
  - apply IH in Hin as [? ?]. set_solver.
Qed.

Lemma count_image_app c l1 l2 :
  count_image c (l1 ++ l2) = (count_image c l1 + count_image c l2)%nat.
Proof. unfold count_image. by rewrite filter_app, length_app. Qed.

Lemma count_image_0 c l :
  (∀ e, Image c e ∉ l) → count_image c l = 0%nat.
Proof.
  unfold count_image. induction l as [|b l IH]; intros Hno; [done|].
  rewrite filter_cons_False.
  - apply IH. intros e He. apply (Hno e). by right.
  - destruct b as [t|d e]; simpl; [by intros []|].
    intros Hd%bool_decide_unpack. subst d. apply (Hno e). by left.
Qed.

(** The block sequence splits at the first image whose hash is new. *)
Lemma extract_blocks_split pre post p l1 l2 c e :
  page_images p = l1 ++ (c, e) :: l2 →
  (∀ img, img ∈ (all_images pre ++ l1) → hash img.1 ≠ hash c) →
  ∃ rest,
    extract_blocks ua us hash (pre ++ p :: post)
    = extract_blocks ua us hash (pre ++ [Page (page_text p) l1])
      ++ Image c e :: rest ∧
    (∀ e', Image c e' ∉ rest).
Proof.
  intros Hp Hnew.
  set (S1 := (∅ : gset Z) ∪ hashes hash (all_images pre)).
  assert (hash c ∉ S1 ∪ hashes hash l1) as Hc.
  { intros [Hin|Hin]%elem_of_union.
    - apply elem_of_union in Hin as [Hin|Hin]; [set_solver|].
      apply elem_of_hashes in Hin as (img & Himg & Heq).
      apply (Hnew img); [set_solver|done].
    - apply elem_of_hashes in Hin as (img & Himg & Heq).
      apply (Hnew img); [set_solver|done]. }
  rewrite !extract_blocks_closed, !blocks_from_app. fold S1.
  cbn [blocks_from]. unfold page_part. cbn [page_text page_images].
  rewrite Hp, first_seen_app. cbn [first_seen fst snd].
  rewrite decide_True by done.
  rewrite fmap_app. cbn [fmap list_fmap fst snd].
  eexists. split.
  - rewrite app_nil_r, <- !app_assoc. unfold text_part. cbn [page_text].
    reflexivity.
  - intros e' [Hin|Hin]%elem_of_app.
    + apply list_elem_of_fmap in Hin as ([b' x] & [= <- <-] & Hin).
      apply first_seen_elem in Hin as [_ Hin]. set_solver.
    + apply blocks_from_image in Hin as [_ Hin]. rewrite hashes_app in Hin.
      unfold hashes in Hin. set_solver.
Qed.

Lemma trace_from_app k sent d1 d2 :
  trace_from ua us hash k sent (d1 ++ d2)
  = trace_from ua us hash k sent d1
    ++ trace_from ua us hash (k + length d1) (sent ∪ hashes hash (all_images d1)) d2.
Proof.
  revert k sent. induction d1 as [|p d1 IH]; intros k sent.
  - simpl. rewrite Nat.add_0_r. f_equal. unfold hashes. set_solver.
  - cbn [app trace_from length]. rewrite IH, <- app_assoc.
    replace (S k + length d1)%nat with (k + S (length d1))%nat by lia.
    do 3 f_equal. unfold all_images. cbn [flat_map]. rewrite hashes_app. set_solver.
Qed.

(** The indexed sequence splits at the same place, and the block of
    [c] carries the index of its page. *)
Lemma extract_trace_split pre post p l1 l2 c e :
  page_images p = l1 ++ (c, e) :: l2 →
  (∀ img, img ∈ (all_images pre ++ l1) → hash img.1 ≠ hash c) →
  ∃ T1 T2,
    extract_trace ua us hash (pre ++ p :: post)
    = T1 ++ (length pre, Image c e) :: T2 ∧
    T1.*2 = extract_blocks ua us hash (pre ++ [Page (page_text p) l1]) ∧
    (∀ e', Image c e' ∉ T2.*2).
Proof.
  intros Hp Hnew.
  set (S1 := (∅ : gset Z) ∪ hashes hash (all_images pre)).
  assert (hash c ∉ S1 ∪ hashes hash l1) as Hc.
  { intros [Hin|Hin]%elem_of_union.
    - apply elem_of_union in Hin as [Hin|Hin]; [set_solver|].
      apply elem_of_hashes in Hin as (img & Himg & Heq).
      apply (Hnew img); [set_solver|done].
    - apply elem_of_hashes in Hin as (img & Himg & Heq).
      apply (Hnew img); [set_solver|done]. }
  rewrite extract_trace_closed, trace_from_app. fold S1.
  cbn [trace_from Nat.add]. unfold page_part.
  rewrite Hp, first_seen_app. cbn [first_seen fst snd].
  rewrite decide_True by done.
  rewrite !fmap_app. cbn [fmap list_fmap fst snd].
  exists (trace_from ua us hash 0 ∅ pre
          ++ (pair (length pre) <$> text_part ua us p)
          ++ (pair (length pre)
                <$> ((λ img, Image img.1 img.2) <$> first_seen hash S1 l1))).
  eexists. split_and!.
  - rewrite <- !app_assoc. cbn [app]. reflexivity.
  - rewrite extract_blocks_closed, blocks_from_app. fold S1.
    cbn [blocks_from]. unfold page_part. cbn [page_text page_images].
    rewrite !fmap_app, trace_from_erase, app_nil_r.
    rewrite <- !list_fmap_compose.
    f_equal. f_equal.
    unfold text_part. cbn [page_text]. apply list_fmap_id.
  - intros e'. rewrite fmap_app, trace_from_erase, <- list_fmap_compose.
    intros [Hin|Hin]%elem_of_app.
    + apply list_elem_of_fmap in Hin as (y & Hy & Hin). simpl in Hy. subst y.
      apply list_elem_of_fmap in Hin as ([b' x] & [= <- <-] & Hin).
      apply first_seen_elem in Hin as [_ Hin]. set_solver.
    + apply blocks_from_image in Hin as [_ Hin]. rewrite hashes_app in Hin.
      unfold hashes in Hin. set_solver.
Qed.

End Images.

(** ** [handle_pdf] in closed form *)

Ltac world_simpl :=
  unfold add_log, add_logs, set_user_data, set_files;
  cbn [user_data files log fst snd].

Section Upload.

Variable ua us : char → bool.
Variable hash : bytes → Z.

Lemma for_each_deliver (l : list block) w :
  for_each deliver_block l w = (Return (), add_logs (flat_map block_events l) w).
Proof.
  unfold for_each. revert w. induction l as [|b l IH]; intros w.
  - simpl. by rewrite add_logs_nil.
  - cbn [for_fold flat_map]. unfold mbind, M_bind.
    rewrite deliver_block_events, IH, add_logs_app. done.
Qed.

Lemma handle_pdf_reject u w :
  mime_type u ≠ "application/pdf" →
  handle_pdf ua us hash u w
  = (Return (),
     add_logs [reply_text MSG_PROCESSING; send_message MSG_NOT_PDF None] w).
Proof.
  intros Hm. unfold handle_pdf, mbind, M_bind, emit. cbn [fst snd].
  rewrite decide_True by done.
  by rewrite !add_log_logs, add_logs_app.
Qed.

Lemma handle_pdf_accept u doc w :
  mime_type u = "application/pdf" → attachment u = Some doc →
  handle_pdf ua us hash u w
  = (Return (),
     World (<[KEY := extract_blocks ua us hash doc]> (user_data w))
           (<["/tmp/" +:+ file_name u := Attachment (Some doc)]> (files w))
           (log w ++ reply_text MSG_PROCESSING
              :: flat_map block_events (extract_blocks ua us hash doc)
              ++ [send_message MSG_READY
                    (Some [[BTN_DOWNLOAD]; [BTN_START_OVER]])])).
Proof.
  intros Hm Hd. unfold handle_pdf, mbind, M_bind, emit.
  rewrite decide_False by (intros Hne; by apply Hne).
  unfold download_to_drive, open_pdf, store_blocks. cbn [files set_files add_log].
  rewrite lookup_insert_eq, Hd. rewrite for_each_deliver.
  world_simpl. do 2 f_equal. rewrite <- !app_assoc. done.
Qed.

Lemma handle_pdf_unreadable u w :
  mime_type u = "application/pdf" → attachment u = None →
  handle_pdf ua us hash u w
  = (Raise,
     World (user_data w)
           (<["/tmp/" +:+ file_name u := Attachment None]> (files w))
           (log w ++ [reply_text MSG_PROCESSING])).
Proof.
  intros Hm Hd. unfold handle_pdf, mbind, M_bind, emit.
  rewrite decide_False by (intros Hne; by apply Hne).
  unfold download_to_drive, open_pdf. cbn [files set_files add_log].
  rewrite lookup_insert_eq, Hd. done.
Qed.

Lemma stored_insert (ud : gmap string (list block)) fs lg l :
  stored (World (<[KEY := l]> ud) fs lg) = l.
Proof. unfold stored. cbn [user_data]. by rewrite lookup_insert_eq. Qed.

(** C1. Take the first image with bytes [c] in document order: no
    earlier image has these bytes, and the hash tells [c] apart from
    the earlier images, as deduplication by hash takes for granted.
    Then the block sequence is what was emitted up to
    that place, followed by the [Image] block of [c], followed by
    blocks among which [c] never appears again: exactly one [Image]
    block carries [c], however often [c] occurs later, and it was
    appended while the loop was on the page of that first occurrence.
    The set of seen hashes starts empty in every run: uploading the
    same document again, in whatever state the session is, stores the
    same sequence and sends the photo again. *)
Theorem C1_first_occurrence_only
    (pre post : pdf) (p : page) (l1 l2 : list (bytes * string))
    (c : bytes) (e : string) (name : string) (w : world) :
  page_images p = l1 ++ (c, e) :: l2 →
  (∀ img, img ∈ (all_images pre ++ l1) → img.1 ≠ c) →
  (∀ img, img ∈ (all_images pre ++ l1) → img.1 ≠ c → hash img.1 ≠ hash c) →
  let doc := pre ++ p :: post in
  let blocks := extract_blocks ua us hash doc in
  let upload_it := handle_pdf ua us hash (Upload "application/pdf" name (Some doc)) in
  (∃ rest,
     blocks = extract_blocks ua us hash (pre ++ [Page (page_text p) l1])
              ++ Image c e :: rest ∧
     count_image c (extract_blocks ua us hash (pre ++ [Page (page_text p) l1])) = 0%nat ∧
     count_image c rest = 0%nat) ∧
  count_image c blocks = 1%nat ∧
  (∃ T1 T2,
     extract_trace ua us hash doc = T1 ++ (length pre, Image c e) :: T2 ∧
     (∀ i e', (i, Image c e') ∉ T1) ∧ (∀ i e', (i, Image c e') ∉ T2)) ∧
  stored (run upload_it w) = blocks ∧
  stored (run upload_it (run upload_it w)) = blocks ∧
  send_photo c ∈ emitted upload_it w ∧
  send_photo c ∈ emitted upload_it (run upload_it w).
Proof.
  intros Hp Hfirst Hcoll doc blocks upload_it.
  assert (∀ img, img ∈ (all_images pre ++ l1) → hash img.1 ≠ hash c) as Hnew
    by (intros img Hin; apply Hcoll; [done|by apply Hfirst]).
  destruct (extract_blocks_split ua us hash pre post p l1 l2 c e Hp Hnew)
    as (rest & Heq & Hrest).
  assert (∀ e', Image c e' ∉ extract_blocks ua us hash (pre ++ [Page (page_text p) l1]))
    as Hnopre.
  { intros e' Hin.
    rewrite extract_blocks_closed in Hin.
    apply blocks_from_image in Hin as [Hin _].
    apply (Hfirst (c, e')); [|done].
    unfold all_images in *. rewrite flat_map_app in Hin. simpl in Hin.
    by rewrite app_nil_r in Hin. }
  assert (count_image c (extract_blocks ua us hash (pre ++ [Page (page_text p) l1]))
          = 0%nat) as Hpre by by apply count_image_0.
  assert (count_image c rest = 0%nat) as Hpost by by apply count_image_0.
  assert (count_image c blocks = 1%nat) as Hone.
  { unfold blocks, doc. rewrite Heq, count_image_app, Hpre.
    change (Image c e :: rest) with ([Image c e] ++ rest).
    rewrite count_image_app, Hpost. unfold count_image.
    rewrite filter_cons_True by (simpl; by apply bool_decide_pack). done. }
  assert (∀ w', upload_it w'
            = (Return (),
               World (<[KEY := blocks]> (user_data w'))
                     (<["/tmp/" +:+ name := Attachment (Some doc)]> (files w'))
                     (log w' ++ reply_text MSG_PROCESSING
                        :: flat_map block_events blocks
                        ++ [send_message MSG_READY
                              (Some [[BTN_DOWNLOAD]; [BTN_START_OVER]])]))) as Hrun
    by (intros w'; by apply handle_pdf_accept).
  assert (∀ w', send_photo c ∈ emitted upload_it w') as Hphoto.
  { intros w'. erewrite emitted_app; [|unfold run; by rewrite Hrun].
    right. apply elem_of_app. left. apply list_elem_of_In, in_flat_map.
    exists (Image c e). split; [|by left].
    apply list_elem_of_In. unfold blocks, doc. rewrite Heq. set_solver. }
  split_and!.
  - exists rest. done.
  - done.
  - destruct (extract_trace_split ua us hash pre post p l1 l2 c e Hp Hnew)
      as (T1 & T2 & HT & HT1 & HT2).
    exists T1, T2. split_and!; [done| |].
    + intros i e' Hin. apply (Hnopre e'). rewrite <- HT1.
      by apply (list_elem_of_fmap_2 snd) in Hin.
    + intros i e' Hin. apply (HT2 e').
      by apply (list_elem_of_fmap_2 snd) in Hin.
  - unfold run. rewrite Hrun. apply stored_insert.
  - unfold run. rewrite !Hrun. apply stored_insert.
  - apply Hphoto.
  - apply Hphoto.
Qed.

(** C5. An upload whose MIME type is not [application/pdf] gets the
    rejection message and nothing else happens: the handler returns,
    the session's dictionary (so the stored block sequence) and the
    files are what they were. *)
Theorem C5_non_pdf_rejected (u : upload) (w : world) :
  mime_type u ≠ "application/pdf" →
  let h := handle_pdf ua us hash u in
  emitted h w = [reply_text MSG_PROCESSING; send_message MSG_NOT_PDF None] ∧
  outcome h w = Return () ∧
  user_data (run h w) = user_data w ∧
  stored (run h w) = stored w ∧
  files (run h w) = files w.
Proof.
  intros Hm h. unfold h, emitted, outcome, run.
  rewrite handle_pdf_reject by done. unfold stored. world_simpl.
  split_and!; try done. apply drop_app_length.
Qed.

End Upload.

(** ** [download_word_callback] and [start_over_callback] in closed form *)

Section Download.

Variable mktemp : gset string → string → string.
Variable docx_accepts : docx_input → bool.
Variable transport_accepts : file → bool.

Lemma writable_nil : writable docx_accepts [].
Proof. constructor. Qed.

Lemma writable_text t l :
  writable docx_accepts (Text t :: l)
  ↔ docx_accepts (ParagraphText t) = true ∧ writable docx_accepts l.
Proof. unfold writable, block_texts. cbn. by rewrite Forall_cons. Qed.

Lemma writable_image img ext l :
  writable docx_accepts (Image img ext :: l) ↔ writable docx_accepts l.
Proof. done. Qed.

Lemma reached_writable l : writable docx_accepts l → reached docx_accepts l = l.
Proof.
  induction l as [|[t|img ext] l IH]; intros Hw; [done| |].
  - apply writable_text in Hw as [Ht Hw]. cbn [reached]. rewrite Ht. by rewrite IH.
  - cbn [reached]. by rewrite IH.
Qed.

(** One block: a refused text raises and leaves everything as it was;
    an image always returns. *)
Lemma assemble_block_closed doc0 b w :
  assemble_block mktemp docx_accepts doc0 b w
  = (if decide (writable docx_accepts [b])
     then Return (doc0 ++ built_element docx_accepts b) else Raise,
     World (user_data w)
           (assembled_files mktemp (files w) [b])
           (log w ++ assembled_events mktemp docx_accepts (files w) [b])).
Proof.
  destruct w as [ud fs lg]. destruct b as [t|img ext].
  - cbn [assemble_block add_paragraph assembled_files assembled_events
         built_element user_data files log]. rewrite app_nil_r.
    unfold add_paragraph. destruct (docx_accepts (ParagraphText t)) eqn:Ht.
    + rewrite decide_True; [done|]. apply writable_text. split; [done|constructor].
    + rewrite decide_False; [done|]. intros [Hw _]%writable_text. congruence.
  - rewrite decide_True by (apply writable_image; constructor).
    unfold assemble_block, mbind, M_bind, open_temp, write_flush, try_except,
      add_picture, emit, mret, M_ret, after_failed_picture.
    world_simpl. rewrite lookup_insert_eq, insert_insert_eq.
    cbn [assembled_files assembled_events built_element].
    destruct (docx_accepts (ImageFile img)); world_simpl.
    + by rewrite app_nil_r.
    + by rewrite app_nil_r, <- app_assoc.
Qed.

(** The loop: it returns the document of all the blocks when every text
    is accepted and raises otherwise, having created the files and made
    the calls of the blocks it got through. *)
Lemma assemble_closed blocks doc0 w :
  for_fold (assemble_block mktemp docx_accepts) doc0 blocks w
  = (if decide (writable docx_accepts blocks)
     then Return (doc0 ++ built docx_accepts blocks) else Raise,
     World (user_data w)
           (assembled_files mktemp (files w) (reached docx_accepts blocks))
           (log w ++ assembled_events mktemp docx_accepts (files w)
                       (reached docx_accepts blocks))).
Proof.
  revert doc0 w. induction blocks as [|b blocks IH]; intros doc0 w.
  - destruct w. cbn. by rewrite !app_nil_r.
  - cbn [for_fold]. unfold mbind, M_bind. rewrite assemble_block_closed.
    destruct b as [t|img ext].
    + cbn [reached assembled_files assembled_events]. rewrite app_nil_r.
      destruct (docx_accepts (ParagraphText t)) eqn:Ht.
      * rewrite decide_True by (apply writable_text; split; [done|constructor]).
        rewrite IH. cbn [user_data files log assembled_files assembled_events].
        unfold built. cbn [flat_map built_element]. rewrite <- !app_assoc.
        destruct (decide (writable docx_accepts blocks)) as [Hw|Hw].
        -- rewrite decide_True by (by apply writable_text). by destruct w.
        -- rewrite decide_False by (intros [_ ?]%writable_text; done). by destruct w.
      * rewrite decide_False by (intros [? _]%writable_text; congruence).
        rewrite decide_False by (intros [? _]%writable_text; congruence).
        destruct w. cbn. by rewrite app_nil_r.
    + rewrite decide_True by (apply writable_image; constructor).
      rewrite IH. cbn [user_data files log reached assembled_files assembled_events].
      unfold built. cbn [flat_map]. rewrite <- !app_assoc.
      destruct (decide (writable docx_accepts blocks)) as [Hw|Hw];
        [rewrite decide_True by (by apply writable_image)
        |rewrite decide_False by (by rewrite writable_image)];
        f_equal; f_equal; cbn; by rewrite <- !app_assoc.
Qed.

Lemma download_empty w :
  stored w = [] →
  download_word_callback mktemp docx_accepts transport_accepts w
  = (Return (), add_logs [answer; edit_message_text MSG_NO_DATA] w).
Proof.
  intros Hs. unfold download_word_callback, mbind, M_bind, emit, get_blocks.
  change (stored (add_log answer w)) with (stored w). rewrite Hs.
  by rewrite !add_log_logs, add_logs_app.
Qed.

Lemma download_nonempty w :
  stored w ≠ [] →
  let d := built docx_accepts (stored w) in
  let got := reached docx_accepts (stored w) in
  let fs' := <[OUT_PATH := Docx d]> (assembled_files mktemp (files w) got) in
  let evs := assembled_events mktemp docx_accepts (files w) got in
  download_word_callback mktemp docx_accepts transport_accepts w
  = if decide (writable docx_accepts (stored w))
    then
      if transport_accepts (Docx d)
      then (Return (),
            World (user_data w) fs'
                  (log w ++ answer :: evs
                     ++ [send_document (Docx d) "converted.docx";
                         edit_message_reply_markup (Some [[BTN_START_OVER]])]))
      else (Raise, World (user_data w) fs' (log w ++ answer :: evs))
    else (Raise,
          World (user_data w) (assembled_files mktemp (files w) got)
                (log w ++ answer :: evs)).
Proof.
  intros Hs. cbv zeta.
  unfold download_word_callback, mbind, M_bind, emit, get_blocks.
  change (stored (add_log answer w)) with (stored w).
  destruct (stored w) as [|b l] eqn:Hst; [done|].
  unfold assemble. rewrite assemble_closed.
  destruct (decide (writable docx_accepts (b :: l))) as [Hw|Hw].
  - unfold save, open_rb, bot_send_document. world_simpl.
    rewrite lookup_insert_eq. cbn [app].
    destruct (transport_accepts _); world_simpl.
    + do 2 f_equal. rewrite <- !app_assoc. done.
    + do 2 f_equal. rewrite <- !app_assoc. done.
  - world_simpl. do 2 f_equal. rewrite <- !app_assoc. done.
Qed.

Lemma start_over_closed w :
  start_over_callback w
  = (Return (),
     World (delete KEY (user_data w)) (files w)
           (log w ++ [answer; edit_message_reply_markup None;
                      send_message MSG_SEND_NEW None])).
Proof.
  unfold start_over_callback, mbind, M_bind, emit, pop_blocks. world_simpl.
  by rewrite <- !app_assoc.
Qed.

(** A temporary file never has the name of the saved document. *)
Lemma temp_name_not_out used suffix : temp_name mktemp used suffix ≠ OUT_PATH.
Proof. unfold temp_name, OUT_PATH. cbn. discriminate. Qed.

(** What [assemble] leaves on disk. *)
Lemma assembled_files_dom fs blocks :
  dom fs ⊆ dom (assembled_files mktemp fs blocks) ∧
  Forall (λ n, n ∈ dom (assembled_files mktemp fs blocks))
         (temp_files (assembled_events mktemp docx_accepts fs blocks)).
Proof.
  revert fs. induction blocks as [|[t|img ext] blocks IH]; intros fs.
  - simpl. split; [done|constructor].
  - apply IH.
  - cbn [assembled_files assembled_events].
    set (name := temp_name mktemp (dom fs) ("." +:+ ext)).
    destruct (IH (<[name := RawBytes img]> fs)) as [Hsub Hall].
    rewrite dom_insert_L in Hsub. split; [set_solver|].
    assert (∀ l, temp_files (NamedTemporaryFile name
                    :: (if docx_accepts (ImageFile img) then [] else [logger_warning]) ++ l)
                 = name :: temp_files l) as ->
      by (intros l; by destruct (docx_accepts (ImageFile img))).
    constructor; [set_solver|done].
Qed.

Lemma assembled_files_out fs blocks :
  assembled_files mktemp fs blocks !! OUT_PATH = fs !! OUT_PATH.
Proof.
  revert fs. induction blocks as [|[t|img ext] blocks IH]; intros fs.
  - done.
  - apply IH.
  - cbn [assembled_files]. rewrite IH.
    apply lookup_insert_ne, temp_name_not_out.
Qed.

Lemma assembled_events_temps fs blocks :
  length (temp_files (assembled_events mktemp docx_accepts fs blocks))
  = length (filter (λ b, ¬ is_text b) blocks).
Proof.
  revert fs. induction blocks as [|[t|img ext] blocks IH]; intros fs.
  - done.
  - rewrite filter_cons_False by (simpl; tauto). apply IH.
  - rewrite filter_cons_True by (by intros []).
    cbn [assembled_events length].
    rewrite <- (IH (<[temp_name mktemp (dom fs) ("." +:+ ext) := RawBytes img]> fs)).
    by destruct (docx_accepts (ImageFile img)).
Qed.

Lemma assembled_events_no_document fs blocks :
  sent_documents (assembled_events mktemp docx_accepts fs blocks) = [].
Proof.
  revert fs. induction blocks as [|[t|img ext] blocks IH]; intros fs.
  - done.
  - apply IH.
  - cbn [assembled_events]. destruct (docx_accepts (ImageFile img)); cbn; apply IH.
Qed.



Lemma built_length blocks : length (built docx_accepts blocks) = length blocks.
Proof.
  unfold built.
  induction blocks as [|[t|img ext] blocks IH]; [done| |];
    cbn [flat_map built_element]; rewrite length_app, IH.
  - done.
  - by destruct (docx_accepts (ImageFile img)).
Qed.

End Download.

(** ** The download and start-over actions *)

Section Actions.

Variable ua us : char → bool.
Variable hash : bytes → Z.
Variable mktemp : gset string → string → string.
Variable docx_accepts : docx_input → bool.
Variable transport_accepts : file → bool.

Let dl := download_word_callback mktemp docx_accepts transport_accepts.

Lemma sent_documents_app l1 l2 :
  sent_documents (l1 ++ l2) = sent_documents l1 ++ sent_documents l2.
Proof. apply omap_app. Qed.

Lemma temp_files_app l1 l2 : temp_files (l1 ++ l2) = temp_files l1 ++ temp_files l2.
Proof. apply omap_app. Qed.

(** Everything the download action does, by cases on the stored
    sequence, on the document writer and on the transport. *)
Lemma download_summary w :
  let d := built docx_accepts (stored w) in
  let got := reached docx_accepts (stored w) in
  let evs := assembled_events mktemp docx_accepts (files w) got in
  let fs' := <[OUT_PATH := Docx d]> (assembled_files mktemp (files w) got) in
  user_data (run dl w) = user_data w ∧
  ((stored w = [] ∧ outcome dl w = Return () ∧ files (run dl w) = files w ∧
    emitted dl w = [answer; edit_message_text MSG_NO_DATA]) ∨
   (stored w ≠ [] ∧ writable docx_accepts (stored w) ∧
    transport_accepts (Docx d) = true ∧
    outcome dl w = Return () ∧ files (run dl w) = fs' ∧
    emitted dl w = answer :: evs
                   ++ [send_document (Docx d) "converted.docx";
                       edit_message_reply_markup (Some [[BTN_START_OVER]])]) ∨
   (stored w ≠ [] ∧ writable docx_accepts (stored w) ∧
    transport_accepts (Docx d) = false ∧
    outcome dl w = Raise ∧ files (run dl w) = fs' ∧
    emitted dl w = answer :: evs) ∨
   (stored w ≠ [] ∧ ¬ writable docx_accepts (stored w) ∧
    outcome dl w = Raise ∧
    files (run dl w) = assembled_files mktemp (files w) got ∧
    emitted dl w = answer :: evs)).
Proof.
  cbv zeta. unfold emitted, outcome, run, dl.
  destruct (decide (stored w = [])) as [Hs|Hs].
  - rewrite download_empty by done. world_simpl. split; [done|]. left.
    split_and!; try done. apply drop_app_length.
  - rewrite download_nonempty by done.
    destruct (decide (writable docx_accepts (stored w))) as [Hw|Hw].
    + destruct (transport_accepts _) eqn:Ht; world_simpl; (split; [done|]); right.
      * left. split_and!; try done. apply drop_app_length.
      * right; left. split_and!; try done. apply drop_app_length.
    + world_simpl. split; [done|]. do 3 right.
      split_and!; try done. apply drop_app_length.
Qed.

Lemma stored_user_data w1 w2 : user_data w1 = user_data w2 → stored w1 = stored w2.
Proof. unfold stored. by intros ->. Qed.

(** C6. With no stored sequence, or an empty one, the download action
    answers with the "no data" text and sends no document (and touches
    no file); start over removes the stored sequence, so a download
    right after it takes that branch. *)
Theorem C6_nothing_to_convert (w : world) :
  (user_data w !! KEY = None ∨ user_data w !! KEY = Some [] →
   emitted dl w = [answer; edit_message_text MSG_NO_DATA] ∧
   sent_documents (emitted dl w) = [] ∧
   outcome dl w = Return () ∧
   files (run dl w) = files w) ∧
  user_data (run start_over_callback w) !! KEY = None ∧
  emitted dl (run start_over_callback w) = [answer; edit_message_text MSG_NO_DATA] ∧
  sent_documents (emitted dl (run start_over_callback w)) = [].
Proof.
  assert (∀ w', stored w' = [] →
            emitted dl w' = [answer; edit_message_text MSG_NO_DATA] ∧
            sent_documents (emitted dl w') = [] ∧
            outcome dl w' = Return () ∧ files (run dl w') = files w') as Hempty.
  { intros w' Hs. destruct (download_summary w') as (_ & [H|[H|[H|H]]]).
    - destruct H as (_ & Ho & Hf & He). rewrite He. done.
    - by destruct H as (Hne & _).
    - by destruct H as (Hne & _).
    - by destruct H as (Hne & _). }
  assert (user_data (run start_over_callback w) !! KEY = None) as Hpop.
  { unfold run. rewrite start_over_closed. cbn [snd user_data].
    apply lookup_delete_eq. }
  assert (stored (run start_over_callback w) = []) as Hso
    by (unfold stored; by rewrite Hpop).
  split_and!.
  - intros Hk. apply Hempty. unfold stored. by destruct Hk as [-> | ->].
  - done.
  - by apply Hempty.
  - by apply Hempty.
Qed.

(** C7 (amended). The temporary files of the assembly are never
    removed: every file [tempfile] created during the action is on disk
    when the action ends, whether the image was embedded or not and
    whether the action returned or raised; there is one such file for
    each [Image] block the assembly got to; no file that was on disk
    before is gone either. *)
Theorem C7_temporary_files_remain (w : world) :
  Forall (λ n, n ∈ dom (files (run dl w))) (temp_files (emitted dl w)) ∧
  length (temp_files (emitted dl w))
  = length (filter (λ b, ¬ is_text b) (reached docx_accepts (stored w))) ∧
  dom (files w) ⊆ dom (files (run dl w)).
Proof.
  pose proof (assembled_files_dom mktemp docx_accepts (files w)
                (reached docx_accepts (stored w))) as [Hsub Hall].
  pose proof (assembled_events_temps mktemp docx_accepts (files w)
                (reached docx_accepts (stored w))) as Hlen.
  destruct (download_summary w) as (_ & [H|[H|[H|H]]]).
  - destruct H as (Hs & _ & Hf & He). rewrite He, Hf, Hs. split_and!; [constructor|done|done].
  - destruct H as (_ & _ & _ & _ & Hf & He). rewrite He, Hf.
    change (answer :: ?l) with ([answer] ++ l).
    rewrite !temp_files_app. cbn [temp_files omap app]. rewrite app_nil_r.
    rewrite dom_insert_L. split_and!; [|done|set_solver].
    eapply Forall_impl; [exact Hall|]. set_solver.
  - destruct H as (_ & _ & _ & _ & Hf & He). rewrite He, Hf.
    change (answer :: ?l) with ([answer] ++ l).
    rewrite !temp_files_app. cbn [temp_files omap app].
    rewrite dom_insert_L. split_and!; [|done|set_solver].
    eapply Forall_impl; [exact Hall|]. set_solver.
  - destruct H as (_ & _ & _ & Hf & He). rewrite He, Hf.
    change (answer :: ?l) with ([answer] ++ l).
    rewrite !temp_files_app. cbn [temp_files omap app].
    split_and!; done.
Qed.


(** C9. A download action that goes through sends exactly one
    document, under the name [converted.docx], whatever file name the
    upload had; no download action ever sends a document under another
    name. *)
Theorem C9_attachment_name (u : upload) (w : world) :
  let w1 := run (handle_pdf ua us hash u) w in
  Forall (λ fn, fn.2 = "converted.docx") (sent_documents (emitted dl w1)) ∧
  (stored w1 ≠ [] → outcome dl w1 = Return () →
   sent_documents (emitted dl w1)
   = [(Docx (built docx_accepts (stored w1)), "converted.docx")]).
Proof.
  cbv zeta. set (w1 := run (handle_pdf ua us hash u) w).
  destruct (download_summary w1) as (_ & [H|[H|[H|H]]]).
  - destruct H as (Hs & _ & _ & He). rewrite He. split; [constructor|done].
  - destruct H as (_ & _ & _ & _ & _ & He). rewrite He.
    change (answer :: ?l) with ([answer] ++ l).
    rewrite !sent_documents_app, assembled_events_no_document. cbn.
    split; [by repeat constructor|done].
  - destruct H as (_ & _ & _ & Ho & _ & He). rewrite He, Ho.
    change (answer :: ?l) with ([answer] ++ l).
    rewrite !sent_documents_app, assembled_events_no_document. cbn.
    split; [constructor|done].
  - destruct H as (_ & _ & Ho & _ & He). rewrite He, Ho.
    change (answer :: ?l) with ([answer] ++ l).
    rewrite !sent_documents_app, assembled_events_no_document. cbn.
    split; [constructor|done].
Qed.

(** C10. The download action leaves the session's dictionary as it
    was, on every path (nothing stored, document sent, send refused,
    assembly raised):
    the stored sequence is unchanged, and a second download ends the
    same way, builds the same document and sends the same attachment. *)
Theorem C10_download_keeps_blocks (w : world) :
  user_data (run dl w) = user_data w ∧
  stored (run dl w) = stored w ∧
  outcome dl (run dl w) = outcome dl w ∧
  sent_documents (emitted dl (run dl w)) = sent_documents (emitted dl w) ∧
  files (run dl (run dl w)) !! OUT_PATH = files (run dl w) !! OUT_PATH.
Proof.
  destruct (download_summary w) as (Hud & Hw).
  pose proof (stored_user_data _ _ Hud) as Hst.
  destruct (download_summary (run dl w)) as (_ & Hw').
  rewrite Hst in Hw'.
  destruct Hw as [(Hs & Ho & Hf & He)
                 |[(Hs & Hwr & Ht & Ho & Hf & He)
                  |[(Hs & Hwr & Ht & Ho & Hf & He)|(Hs & Hwr & Ho & Hf & He)]]],
           Hw' as [(Hs' & Ho' & Hf' & He')
                  |[(Hs' & Hwr' & Ht' & Ho' & Hf' & He')
                   |[(Hs' & Hwr' & Ht' & Ho' & Hf' & He')
                    |(Hs' & Hwr' & Ho' & Hf' & He')]]];
    try done; try congruence;
    rewrite Ho, Ho', He, He', Hf';
    repeat match goal with
           | |- context [sent_documents (answer :: ?l)] =>
               change (answer :: l) with ([answer] ++ l)
           end;
    rewrite ?sent_documents_app, ?assembled_events_no_document;
    split_and!; try done.
  - by rewrite Hf, !lookup_insert_eq.
  - by rewrite Hf, !lookup_insert_eq.
  - by rewrite Hf, !assembled_files_out.
Qed.

End Actions.

(** ** The properties at the sample inputs *)

(** The scan resumes after a match, as [re.sub] does: in ["a-\nb-\nc"]
    the letter between the two breaks is used up by the first join and
    the second break stays. *)
Lemma join_hyphen_resumes_after_match :
  join_hyphen no_unicode [97; 45; 10; 98; 45; 10; 99] = [97; 98; 45; 10; 99].
Proof. reflexivity. Qed.


(** What the hypothesis on hashes is for: the loop compares hashes, not
    bytes.  Under a hash that sends [img_a] and [img_b] to one value,
    [img_b] occurs twice in [doc_collision], after [img_a], and no
    [Image] block carries it. *)
Lemma equal_hashes_hide_an_image :
  img_a ≠ img_b ∧
  byte_sum_hash img_a = byte_sum_hash img_b ∧
  occurrences img_b doc_collision = 2%nat ∧
  count_image img_b
    (extract_blocks no_unicode no_unicode byte_sum_hash doc_collision) = 0%nat ∧
  extract_blocks no_unicode no_unicode byte_sum_hash doc_collision
    = [Image img_a "png"].
Proof. split_and!; [discriminate|vm_compute; reflexivity..]. Qed.

Lemma C1_first_occurrence_only_witness :
  page_images page_mid = [] ++ (img_c, "jpeg") :: [(img_a, "png")] ∧
  (∀ img, img ∈ (all_images doc_pre ++ []) → img.1 ≠ img_c) ∧
  (∀ img, img ∈ (all_images doc_pre ++ []) → img.1 ≠ img_c →
          byte_sum_hash img.1 ≠ byte_sum_hash img_c) ∧
  count_image img_c
    (extract_blocks no_unicode no_unicode byte_sum_hash
       (doc_pre ++ page_mid :: doc_post)) = 1%nat.
Proof.
  assert (page_images page_mid = [] ++ (img_c, "jpeg") :: [(img_a, "png")]) as H1
    by reflexivity.
  assert (∀ img, img ∈ (all_images doc_pre ++ []) → img.1 ≠ img_c) as H2.
  { intros img Hin. apply list_elem_of_In in Hin. simpl in Hin.
    destruct Hin as [<-|[]]. discriminate. }
  assert (∀ img, img ∈ (all_images doc_pre ++ []) → img.1 ≠ img_c →
                 byte_sum_hash img.1 ≠ byte_sum_hash img_c) as H3.
  { intros img Hin _. apply list_elem_of_In in Hin. simpl in Hin.
    destruct Hin as [<-|[]]. vm_compute. discriminate. }
  split_and!; try assumption.
  exact (proj1 (proj2 (C1_first_occurrence_only no_unicode no_unicode byte_sum_hash
                         doc_pre doc_post page_mid [] [(img_a, "png")]
                         img_c "jpeg" "a.pdf" empty_world H1 H2 H3))).
Defined.

Lemma C5_non_pdf_rejected_witness :
  let u := Upload "image/png" "cat.png" None in
  let h := handle_pdf no_unicode no_unicode byte_sum_hash u in
  mime_type u ≠ "application/pdf" ∧
  emitted h world_text_image
    = [reply_text MSG_PROCESSING; send_message MSG_NOT_PDF None] ∧
  stored (run h world_text_image) = stored world_text_image.
Proof.
  cbv zeta.
  assert (mime_type (Upload "image/png" "cat.png" None) ≠ "application/pdf") as H
    by discriminate.
  pose proof (C5_non_pdf_rejected no_unicode no_unicode byte_sum_hash
                (Upload "image/png" "cat.png" None) world_text_image H)
    as (He & _ & _ & Hs & _).
  split_and!; assumption.
Defined.

Lemma C6_nothing_to_convert_witness :
  let dl := download_word_callback counting_mktemp accept_all accept_all in
  (user_data empty_world !! KEY = None ∨ user_data empty_world !! KEY = Some []) ∧
  emitted dl empty_world = [answer; edit_message_text MSG_NO_DATA] ∧
  sent_documents (emitted dl empty_world) = [].
Proof.
  cbv zeta.
  assert (user_data empty_world !! KEY = None ∨ user_data empty_world !! KEY = Some [])
    as H by (left; reflexivity).
  destruct (proj1 (C6_nothing_to_convert counting_mktemp accept_all accept_all
                     empty_world) H) as (He & Hd & _).
  split_and!; assumption.
Defined.

(** C7 as stated fails: with one image block stored, the temporary file
    is on disk, with the image in it, when the download action has
    ended, when the image was embedded, when embedding failed, and when
    the action raised on a later block. *)
Lemma C7_counterexample :
  let embedded := download_word_callback counting_mktemp accept_all accept_all in
  let refused := download_word_callback counting_mktemp accept_none accept_all in
  let raised := download_word_callback counting_mktemp xml_writer accept_all in
  temp_files (emitted embedded world_one_image) = ["/tmp/tmp.png"] ∧
  files (run embedded world_one_image) !! "/tmp/tmp.png" = Some (RawBytes img_a) ∧
  temp_files (emitted refused world_one_image) = ["/tmp/tmp.png"] ∧
  logger_warning ∈ emitted refused world_one_image ∧
  files (run refused world_one_image) !! "/tmp/tmp.png" = Some (RawBytes img_a) ∧
  outcome raised world_image_control = Raise ∧
  temp_files (emitted raised world_image_control) = ["/tmp/tmp.png"] ∧
  files (run raised world_image_control) !! "/tmp/tmp.png" = Some (RawBytes img_a).
Proof.
  cbv zeta. split_and!; try (vm_compute; reflexivity).
  apply list_elem_of_In. vm_compute. tauto.
Qed.



Lemma C9_attachment_name_witness :
  let u := Upload "application/pdf" "report.pdf" (Some (doc_pre ++ page_mid :: doc_post)) in
  let w1 := run (handle_pdf no_unicode no_unicode byte_sum_hash u) empty_world in
  let dl := download_word_callback counting_mktemp accept_all accept_all in
  stored w1 ≠ [] ∧ outcome dl w1 = Return () ∧
  (sent_documents (emitted dl w1)).*2 = ["converted.docx"].
Proof.
  cbv zeta.
  set (u := Upload "application/pdf" "report.pdf" (Some (doc_pre ++ page_mid :: doc_post))).
  set (w1 := run (handle_pdf no_unicode no_unicode byte_sum_hash u) empty_world).
  assert (stored w1 ≠ []) as H1 by (vm_compute; discriminate).
  assert (outcome (download_word_callback counting_mktemp accept_all accept_all) w1
          = Return ()) as H2 by (vm_compute; reflexivity).
  split_and!; [assumption|assumption|].
  exact (f_equal (fmap snd)
           (proj2 (C9_attachment_name no_unicode no_unicode byte_sum_hash
                     counting_mktemp accept_all accept_all u empty_world) H1 H2)).
Defined.

(** ** Hashes into a machine word collide

    The sample above uses a hash made to collide.  Nothing depends on
    that choice: the builtin [hash] returns a machine word,
    and every function from byte strings to a machine word sends two
    different byte strings to the same value; a document with these two
    images then loses the second one. *)

Lemma bounded_search (P : nat → Prop) `{∀ n, Decision (P n)} (n : nat) :
  (∃ k, (k ≤ n)%nat ∧ P k) ∨ (∀ k, (k ≤ n)%nat → ¬ P k).
Proof.
  induction n as [|n [(k & Hk & HP)|Hnone]].
  - destruct (decide (P 0%nat)) as [HP|HP].
    + left. exists 0%nat. done.
    + right. intros k Hk. by replace k with 0%nat by lia.
  - left. exists k. split; [lia|done].
  - destruct (decide (P (S n))) as [HP|HP].
    + left. exists (S n). done.
    + right. intros k Hk. destruct (decide (k = S n)) as [->|]; [done|].
      apply Hnone. lia.
Qed.

Lemma pigeonhole (N : nat) (f : nat → Z) (lo : Z) :
  (∀ n, (n ≤ N)%nat → (lo ≤ f n < lo + Z.of_nat N)%Z) →
  ∃ i j, (i < j ≤ N)%nat ∧ f i = f j.
Proof.
  revert f. induction N as [|M IH]; intros f Hf.
  - specialize (Hf 0%nat). lia.
  - set (top := (lo + Z.of_nat M)%Z).
    destruct (bounded_search (λ k, f k = top) (S M)) as [(k & Hk & Hfk)|Hnone].
    + set (skip := λ n : nat, if decide (n < k)%nat then n else S n).
      assert (∀ n, (n ≤ M)%nat → (skip n ≤ S M)%nat ∧ skip n ≠ k) as Hskip
        by (intros n Hn; unfold skip; case_decide; lia).
      assert (∀ a b, (a < b)%nat → (skip a < skip b)%nat) as Hmono
        by (intros a b Hab; unfold skip; repeat case_decide; lia).
      destruct (bounded_search (λ n, f (skip n) = top) M) as [(n & Hn & Hfn)|Hfree].
      * destruct (Hskip n Hn) as [Hle Hne].
        destruct (decide (skip n < k)%nat).
        -- exists (skip n), k. split; [lia|congruence].
        -- exists k, (skip n). split; [lia|congruence].
      * destruct (IH (λ n, f (skip n))) as (i & j & Hij & Heq).
        { intros n Hn. destruct (Hskip n Hn) as [Hle _].
          specialize (Hf (skip n) Hle). specialize (Hfree n Hn).
          unfold top in Hfree. lia. }
        exists (skip i), (skip j). split; [|done].
        split; [apply Hmono; lia|]. apply Hskip. lia.
    + destruct (IH f) as (i & j & Hij & Heq).
      { intros n Hn. specialize (Hf n ltac:(lia)). specialize (Hnone n ltac:(lia)).
        unfold top in Hnone. lia. }
      exists i, j. split; [lia|done].
Qed.

Lemma hash_collision (hash : bytes → Z) :
  (∀ b, (- 2 ^ 63 ≤ hash b < 2 ^ 63)%Z) →
  ∃ b1 b2, b1 ≠ b2 ∧ hash b1 = hash b2.
Proof.
  intros Hrange.
  assert (∃ N : nat, Z.of_nat N = (2 ^ 64)%Z) as (N & HN).
  { exists (Z.to_nat (2 ^ 64)). apply Z2Nat.id. apply Z.pow_nonneg. lia. }
  destruct (pigeonhole N (λ n, hash (replicate n Byte.x00)) (- 2 ^ 63)%Z)
    as (i & j & Hij & Heq).
  { intros n _. specialize (Hrange (replicate n Byte.x00)). rewrite HN.
    change (2 ^ 64)%Z with (2 ^ 63 + 2 ^ 63)%Z. lia. }
  exists (replicate i Byte.x00), (replicate j Byte.x00). split; [|done].
  intros Hrep%(f_equal length). rewrite !length_replicate in Hrep. lia.
Qed.

Lemma collision_hides_image (ua us : char → bool) (hash : bytes → Z) (b1 b2 : bytes) :
  b1 ≠ b2 → hash b1 = hash b2 →
  let doc := [Page Raised [(b1, "png"); (b2, "png")]; Page Raised [(b2, "png")]] in
  occurrences b2 doc = 2%nat ∧
  extract_blocks ua us hash doc = [Image b1 "png"].
Proof.
  intros Hne Heq doc. split.
  - unfold occurrences, doc, all_images. cbn [flat_map page_images app].
    rewrite filter_cons_False by done.
    rewrite !filter_cons_True by done. done.
  - unfold doc. rewrite extract_blocks_closed.
    cbn [blocks_from]. unfold page_part, text_part, hashes.
    cbn [page_text extract_text page_images first_seen fst snd fmap list_fmap
         list_to_set].
    rewrite decide_True by set_solver.
    rewrite decide_False by (rewrite Heq; set_solver).
    rewrite decide_False by (rewrite Heq; set_solver). done.
Qed.

(** Whatever the machine-word hash, some document has an image twice
    and no block for it. *)
Lemma machine_word_hash_loses_an_image (ua us : char → bool) (hash : bytes → Z) :
  (∀ b, (- 2 ^ 63 ≤ hash b < 2 ^ 63)%Z) →
  ∃ (doc : pdf) (c : bytes),
    occurrences c doc = 2%nat ∧ count_image c (extract_blocks ua us hash doc) = 0%nat.
Proof.
  intros Hrange. destruct (hash_collision hash Hrange) as (b1 & b2 & Hne & Heq).
  destruct (collision_hides_image ua us hash b1 b2 Hne Heq) as [Hocc Hblocks].
  eexists _, b2. split; [exact Hocc|]. rewrite Hblocks.
  unfold count_image. rewrite filter_cons_False; [done|].
  simpl. intros Hb%bool_decide_unpack. done.
Qed.

(** * Further properties of the code *)

(** ** Normalization: fixed points and blank texts *)

Section NormalForms.

Variable ua us : char → bool.

Lemma join_hyphen_copy a h n b rest :
  is_word ua a && (h =? HYPHEN) && (n =? NL) && is_word ua b = false →
  join_hyphen ua (a :: h :: n :: b :: rest)
  = a :: join_hyphen ua (h :: n :: b :: rest).
Proof. intros Hno. cbn [join_hyphen]. by rewrite Hno. Qed.

Lemma join_hyphen_no_newline s : NL ∉ s → join_hyphen ua s = s.
Proof.
  induction s as [|a t IH]; intros Hnl; [done|].
  assert (join_hyphen ua t = t) as Ht by (apply IH; set_solver).
  destruct t as [|h [|n [|b rest]]]; try done.
  rewrite join_hyphen_copy; [by rewrite Ht|].
  assert ((n =? NL) = false) as -> by (apply N.eqb_neq; set_solver).
  by rewrite andb_false_r.
Qed.

Lemma join_hyphen_no_word s :
  Forall (λ c, is_word ua c = false) s → join_hyphen ua s = s.
Proof.
  induction s as [|a t IH]; intros Hs; [done|].
  apply Forall_cons in Hs as [Ha Ht%IH].
  destruct t as [|h [|n [|b rest]]]; try done.
  rewrite join_hyphen_copy; [by rewrite Ht|]. by rewrite Ha.
Qed.

Lemma replace_nl_no_newline_id s : NL ∉ s → replace_nl s = s.
Proof.
  unfold replace_nl. induction s as [|c t IH]; intros Hnl; [done|].
  cbn [fmap list_fmap]. rewrite IH by set_solver.
  assert ((c =? NL) = false) as -> by (apply N.eqb_neq; set_solver). done.
Qed.

Lemma squeeze_single_spaced_id s p :
  single_spaced s →
  (p = true → ∀ c, head s = Some c → c ≠ SPACE) →
  squeeze p s = s.
Proof.
  revert p. induction s as [|c t IH]; intros p Hss Hhead; [done|].
  cbn [squeeze].
  destruct (p && (c =? SPACE)) eqn:Hpc.
  - apply andb_true_iff in Hpc as [-> Hc%N.eqb_eq].
    by destruct (Hhead eq_refl c eq_refl).
  - f_equal. apply IH.
    + destruct t as [|d t']; [done|]. by destruct Hss as [_ ?].
    + intros Hc%N.eqb_eq d Hd ->. subst c.
      destruct t as [|d' t']; [done|]. injection Hd as ->.
      destruct Hss as [Hno _]. by apply Hno.
Qed.

Lemma drop_while_id (p : char → bool) s :
  (∀ c, head s = Some c → p c = false) → drop_while p s = s.
Proof. destruct s as [|c t]; [done|]. intros H. simpl. by rewrite (H c eq_refl). Qed.

Lemma drop_while_all (p : char → bool) s :
  Forall (λ c, p c = true) s → drop_while p s = [].
Proof. induction 1 as [|c t Hc _ IH]; [done|]. simpl. by rewrite Hc. Qed.

Lemma strip_trimmed_id s : trimmed us s → strip us s = s.
Proof.
  intros [Hh Hl]. unfold strip, lstrip, rstrip.
  rewrite (drop_while_id _ s) by done.
  rewrite drop_while_id; [apply reverse_involutive|].
  intros c. rewrite head_reverse. apply Hl.
Qed.

Lemma strip_blank s : Forall (λ c, is_space us c = true) s → strip us s = [].
Proof. intros Hs. unfold strip, lstrip, rstrip. rewrite (drop_while_all _ s) by done. done. Qed.

Lemma squeeze_Forall (P : char → Prop) p s : Forall P s → Forall P (squeeze p s).
Proof.
  intros Hs. apply Forall_forall. intros c Hc%squeeze_elem.
  by eapply Forall_forall in Hs.
Qed.

Lemma ascii_space_facts c :
  ascii_space c = true → is_space us c = true ∧ is_word ua c = false.
Proof.
  intros H.
  assert (9 ≤ c ≤ 32) as Hc.
  { unfold ascii_space in H.
    apply orb_true_iff in H as [H|H]; apply andb_true_iff in H as [H1 H2];
      apply N.leb_le in H1, H2; lia. }
  unfold is_space, is_word.
  assert ((c <? 128) = true) as -> by (apply N.ltb_lt; lia).
  split; [done|]. unfold ascii_word.
  assert ((48 <=? c) = false) as -> by (apply N.leb_gt; lia).
  assert ((65 <=? c) = false) as -> by (apply N.leb_gt; lia).
  assert ((97 <=? c) = false) as -> by (apply N.leb_gt; lia).
  assert ((c =? 95) = false) as -> by (apply N.eqb_neq; lia).
  done.
Qed.

(** X1. Normalizing twice is normalizing once, and the texts that
    normalization leaves as they are are exactly those with no newline,
    no two adjacent spaces and no white space at either end. *)
Theorem X1_normalize_fixed_points (s : str) :
  normalize ua us (normalize ua us s) = normalize ua us s ∧
  (normalize ua us s = s ↔ (NL ∉ s) ∧ single_spaced s ∧ trimmed us s).
Proof.
  assert (∀ t, NL ∉ t → single_spaced t → trimmed us t → normalize ua us t = t)
    as Hfix.
  { intros t Hnl Hss Htr. rewrite normalize_steps.
    rewrite join_hyphen_no_newline, replace_nl_no_newline_id by done.
    rewrite squeeze_single_spaced_id by done. by apply strip_trimmed_id. }
  split.
  - apply Hfix.
    + apply normalize_no_newline.
    + apply normalize_single_spaced.
    + unfold normalize. apply strip_trimmed.
  - split.
    + intros <-. split_and!.
      * apply normalize_no_newline.
      * apply normalize_single_spaced.
      * unfold normalize. apply strip_trimmed.
    + intros (Hnl & Hss & Htr). by apply Hfix.
Qed.

(** X2. A text made of ASCII white space only (spaces, tabs, newlines
    and the like) normalizes to the empty string, so its page appends
    no text block. *)
Theorem X2_blank_text_gives_no_block (s : str) (imgs : list (bytes * string)) :
  Forall (λ c, ascii_space c = true) s →
  normalize ua us s = [] ∧
  text_part ua us (Page (Returned (Some s)) imgs) = [].
Proof.
  intros Hs.
  assert (normalize ua us s = []) as Hn.
  { rewrite normalize_steps. apply strip_blank, squeeze_Forall.
    rewrite join_hyphen_no_word.
    - unfold replace_nl. apply Forall_fmap. eapply Forall_impl; [exact Hs|].
      intros c Hc. simpl. destruct (c =? NL); [done|].
      by apply ascii_space_facts.
    - eapply Forall_impl; [exact Hs|]. intros c Hc. by apply ascii_space_facts. }
  split; [done|]. unfold text_part.
  change (extract_text ua us (page_text (Page (Returned (Some s)) imgs)))
    with (normalize ua us s).
  by rewrite Hn.
Qed.

End NormalForms.

(** ** The block sequence as a whole *)

Section BlockSequence.

Variable ua us : char → bool.
Variable hash : bytes → Z.

Lemma block_images_app l1 l2 :
  block_images (l1 ++ l2) = block_images l1 ++ block_images l2.
Proof. apply omap_app. Qed.

Lemma block_texts_app l1 l2 :
  block_texts (l1 ++ l2) = block_texts l1 ++ block_texts l2.
Proof. apply omap_app. Qed.

Lemma block_images_of_images (imgs : list (bytes * string)) :
  block_images ((λ img, Image img.1 img.2) <$> imgs) = imgs.
Proof.
  unfold block_images. induction imgs as [|[b e] imgs IH]; [done|].
  simpl. by f_equal.
Qed.

Lemma block_images_page_part sent p :
  block_images (page_part ua us hash sent p) = first_seen hash sent (page_images p).
Proof.
  unfold page_part. rewrite block_images_app, block_images_of_images.
  unfold text_part. by destruct (extract_text ua us (page_text p)).
Qed.

Lemma block_images_blocks_from sent doc :
  block_images (blocks_from ua us hash sent doc)
  = first_seen hash sent (all_images doc).
Proof.
  revert sent. induction doc as [|p doc IH]; intros sent; [done|].
  cbn [blocks_from]. unfold all_images. cbn [flat_map].
  by rewrite block_images_app, block_images_page_part, IH, first_seen_app.
Qed.

Lemma block_texts_blocks_from sent doc :
  block_texts (blocks_from ua us hash sent doc) = page_texts ua us doc.
Proof.
  revert sent. induction doc as [|p doc IH]; intros sent; [done|].
  cbn [blocks_from]. rewrite block_texts_app, block_texts_page_part, IH.
  unfold page_texts. cbn [fmap list_fmap].
  destruct (extract_text ua us (page_text p)) as [|c t] eqn:Ht.
  - by rewrite filter_cons_False by (intros H; by apply H).
  - by rewrite filter_cons_True by done.
Qed.

Lemma first_seen_sublist sent imgs : first_seen hash sent imgs `sublist_of` imgs.
Proof.
  revert sent. induction imgs as [|img imgs IH]; intros sent; [constructor|].
  cbn [first_seen]. destruct (decide (hash img.1 ∉ sent)).
  - by apply sublist_skip.
  - by apply sublist_cons.
Qed.

Lemma first_seen_NoDup sent imgs :
  NoDup ((λ img, hash img.1) <$> first_seen hash sent imgs).
Proof.
  revert sent. induction imgs as [|img imgs IH]; intros sent; [constructor|].
  cbn [first_seen]. destruct (decide (hash img.1 ∉ sent)); [|done].
  cbn [fmap list_fmap]. constructor; [|done].
  intros (x & Hx & Hin%first_seen_elem)%list_elem_of_fmap. set_solver.
Qed.

Lemma first_seen_hashes sent imgs :
  sent ∪ hashes hash (first_seen hash sent imgs) = sent ∪ hashes hash imgs.
Proof.
  revert sent. induction imgs as [|img imgs IH]; intros sent; [done|].
  cbn [first_seen]. destruct (decide (hash img.1 ∉ sent)) as [Hn|Ho].
  - specialize (IH (sent ∪ {[hash img.1]})). unfold hashes in *.
    cbn [fmap list_fmap list_to_set]. set_solver.
  - apply dec_stable in Ho. specialize (IH sent). unfold hashes in *.
    cbn [fmap list_fmap list_to_set]. set_solver.
Qed.

(** X3. The text blocks of the extraction are the non-empty normalized
    page texts, in page order; each is non-empty, free of newlines and
    of adjacent spaces, and has no white space at its ends. *)
Theorem X3_text_blocks_are_normalized (doc : pdf) :
  block_texts (extract_blocks ua us hash doc) = page_texts ua us doc ∧
  Forall (λ t, t ≠ [] ∧ (NL ∉ t) ∧ single_spaced t ∧ trimmed us t)
         (block_texts (extract_blocks ua us hash doc)).
Proof.
  rewrite extract_blocks_closed, block_texts_blocks_from. split; [done|].
  apply Forall_forall. intros t Ht. unfold page_texts in Ht.
  apply list_elem_of_filter in Ht as [Hne Ht].
  apply list_elem_of_fmap in Ht as (p & -> & _).
  destruct (page_text p) as [|r]; [done|]. cbn [extract_text] in *.
  split_and!; [done|..].
  - apply normalize_no_newline.
  - apply normalize_single_spaced.
  - unfold normalize. apply strip_trimmed.
Qed.

(** X4. The image blocks are a subsequence of the images of the
    document (order kept, extension kept); no two of them have the same
    hash, hence no two have the same bytes; and every hash that occurs
    in the document is the hash of one of them. *)
Theorem X4_image_blocks_are_first_seen (doc : pdf) :
  let imgs := block_images (extract_blocks ua us hash doc) in
  imgs `sublist_of` all_images doc ∧
  NoDup ((λ img, hash img.1) <$> imgs) ∧
  NoDup imgs.*1 ∧
  hashes hash imgs = hashes hash (all_images doc).
Proof.
  cbv zeta. rewrite extract_blocks_closed, block_images_blocks_from.
  pose proof (first_seen_NoDup ∅ (all_images doc)) as Hnd.
  split_and!.
  - apply first_seen_sublist.
  - done.
  - apply (NoDup_fmap_1 hash). by rewrite <- list_fmap_compose.
  - pose proof (first_seen_hashes ∅ (all_images doc)). set_solver.
Qed.

Lemma first_seen_empty_nil imgs : first_seen hash ∅ imgs = [] → imgs = [].
Proof.
  destruct imgs as [|img imgs]; [done|]. cbn [first_seen].
  by rewrite decide_True by set_solver.
Qed.

Lemma all_images_nil doc : all_images doc = [] → Forall (λ p, page_images p = []) doc.
Proof.
  unfold all_images. induction doc as [|p doc IH]; [constructor|].
  cbn [flat_map]. intros [Hp Hd]%app_eq_nil. constructor; [done|by apply IH].
Qed.

Lemma extract_blocks_nil_intro (doc : pdf) :
  Forall (λ p, extract_text ua us (page_text p) = [] ∧ page_images p = []) doc →
  extract_blocks ua us hash doc = [].
Proof.
  rewrite extract_blocks_closed. intros HF. generalize (∅ : gset Z).
  induction HF as [|p doc [Ht Hi] _ IH]; intros sent; [done|].
  cbn [blocks_from]. unfold page_part, text_part. rewrite Ht, Hi. cbn. apply IH.
Qed.

(** X5. The extraction yields no block at all exactly when no page has a
    non-empty normalized text and no page has an image. *)
Theorem X5_no_block_iff_nothing_to_extract (doc : pdf) :
  extract_blocks ua us hash doc = [] ↔
  Forall (λ p, extract_text ua us (page_text p) = [] ∧ page_images p = []) doc.
Proof.
  split; [|apply extract_blocks_nil_intro].
  rewrite extract_blocks_closed. intros Hnil.
  pose proof (block_texts_blocks_from ∅ doc) as Ht.
  pose proof (block_images_blocks_from ∅ doc) as Hi.
  rewrite Hnil in Ht, Hi. cbn in Ht, Hi.
  symmetry in Hi. apply first_seen_empty_nil, all_images_nil in Hi.
  apply Forall_forall. intros p Hp. split.
  - destruct (decide (extract_text ua us (page_text p) = [])) as [|Hne]; [done|].
    assert (extract_text ua us (page_text p) ∈ page_texts ua us doc) as Hin.
    { unfold page_texts. apply list_elem_of_filter. split; [done|].
      by apply (list_elem_of_fmap_2 (λ p, extract_text ua us (page_text p))). }
    rewrite <- Ht in Hin. by apply elem_of_nil in Hin.
  - by eapply Forall_forall in Hi.
Qed.

Lemma text_at_head (k : nat) (tp : list block) (imgs : list (bytes * string))
    (T1 T2 : list (nat * block)) (i : nat) (t : str) :
  (tp = [] ∨ ∃ t0, tp = [Text t0]) →
  pair k <$> (tp ++ ((λ img, Image img.1 img.2) <$> imgs))
  = T1 ++ (i, Text t) :: T2 →
  T1 = [].
Proof.
  assert ((i, Text t) ∉ (pair k <$> ((λ img : bytes * string, Image img.1 img.2) <$> imgs)))
    as Hno.
  { intros (b & [= -> <-] & Hb)%list_elem_of_fmap.
    by apply list_elem_of_fmap in Hb as (img & ? & _). }
  intros [->|(t0 & ->)] Heq.
  - exfalso. apply Hno. cbn [app] in Heq. rewrite Heq. set_solver.
  - destruct T1 as [|x T1]; [done|]. exfalso. apply Hno.
    cbn in Heq. injection Heq as _ Heq. rewrite Heq. set_solver.
Qed.

Lemma trace_from_order doc k sent :
  let tr := trace_from ua us hash k sent doc in
  Forall (λ x, (k ≤ x.1 < k + length doc)%nat) tr ∧
  StronglySorted le tr.*1 ∧
  (∀ T1 i t T2, tr = T1 ++ (i, Text t) :: T2 → Forall (λ x, (x.1 < i)%nat) T1).
Proof.
  revert k sent. induction doc as [|p doc IH]; intros k sent.
  - simpl. split_and!; [constructor|constructor|].
    intros T1 i t T2 Heq. by destruct T1.
  - cbn [trace_from]. cbv zeta.
    destruct (IH (S k) (sent ∪ hashes hash (page_images p))) as (Hb & Hs & Ht).
    set (A := pair k <$> page_part ua us hash sent p).
    set (B := trace_from ua us hash (S k) (sent ∪ hashes hash (page_images p)) doc) in *.
    assert (Forall (λ x : nat * block, x.1 = k) A) as HA
      by (apply Forall_fmap, Forall_forall; done).
    split_and!.
    + apply Forall_app. split.
      * eapply Forall_impl; [exact HA|]. simpl. intros x ->. lia.
      * eapply Forall_impl; [exact Hb|]. simpl. intros x ?. lia.
    + rewrite fmap_app. apply StronglySorted_app_2; [| |done].
      * intros x1 x2 (y1 & -> & H1)%list_elem_of_fmap (y2 & -> & H2)%list_elem_of_fmap.
        eapply Forall_forall in HA; [|exact H1].
        eapply Forall_forall in Hb; [|exact H2]. simpl in *. lia.
      * clear -HA. induction HA as [|x l Hx Hl IHl]; [constructor|].
        cbn [fmap list_fmap]. constructor; [done|].
        apply Forall_fmap. eapply Forall_impl; [exact Hl|]. simpl. intros y ->. lia.
    + intros T1 i t T2 Heq.
      apply app_eq_app in Heq as (l & [[HAl Hl]|[HT Hl]]).
      * destruct l as [|y l].
        -- rewrite app_nil_r in HAl. subst T1. cbn [app] in Hl.
           assert ((i, Text t) ∈ B) as Hin by (rewrite <- Hl; by left).
           eapply Forall_forall in Hb; [|exact Hin].
           eapply Forall_impl; [exact HA|]. simpl in *. intros x ->. lia.
        -- injection Hl as <- _. unfold A, page_part in HAl.
           apply text_at_head in HAl as ->; [constructor|].
           unfold text_part. destruct (extract_text ua us (page_text p)); eauto.
      * subst T1. apply Forall_app. split.
        -- assert ((i, Text t) ∈ B) as Hin by (rewrite Hl; set_solver).
           eapply Forall_forall in Hb; [|exact Hin].
           eapply Forall_impl; [exact HA|]. simpl in *. intros x ->. lia.
        -- by eapply Ht.
Qed.

(** X6. Blocks come in document order: along the block sequence the
    page a block comes from never decreases and is a page of the
    document, and a text block is the first block of its page: every
    block before it comes from an earlier page. *)
Theorem X6_blocks_in_document_order (doc : pdf) :
  let tr := extract_trace ua us hash doc in
  Forall (λ x, (x.1 < length doc)%nat) tr ∧
  StronglySorted le tr.*1 ∧
  (∀ T1 i t T2, tr = T1 ++ (i, Text t) :: T2 → Forall (λ x, (x.1 < i)%nat) T1).
Proof.
  cbv zeta. rewrite extract_trace_closed.
  destruct (trace_from_order doc 0 ∅) as (Hb & Hs & Ht).
  split_and!; [|done|done].
  eapply Forall_impl; [exact Hb|]. simpl. intros x ?. lia.
Qed.

End BlockSequence.

(** ** Chunks: how many, and how full *)

Lemma chunks_nil_iff (s : str) : chunks s = [] ↔ s = [].
Proof.
  split; [|intros ->; apply chunks_nil].
  destruct (decide (s = [])) as [|Hne]; [done|]. by rewrite chunks_cons.
Qed.

(** X7. A text of n characters is cut into ⌈n/4096⌉ chunks, none for
    the empty text, and every chunk but the last is full: only the last
    message of a text block can be shorter than 4096 characters. *)
Theorem X7_chunks_full_but_last (s : str) :
  length (chunks s) = ((length s + 4095) / 4096)%nat ∧
  Forall (λ c, length c = 4096%nat) (removelast (chunks s)) ∧
  (chunks s = [] ↔ s = []).
Proof.
  split_and!.
  - unfold chunks, range_step. rewrite !length_fmap, length_seq. unfold CHUNK.
    f_equal. lia.
  - induction s as [|s Hs IH] using chunks_ind.
    + rewrite chunks_nil. constructor.
    + rewrite chunks_cons by done.
      destruct (chunks (drop CHUNK s)) as [|c l] eqn:Hrest; [constructor|].
      change (removelast (take CHUNK s :: c :: l))
        with (take CHUNK s :: removelast (c :: l)).
      constructor; [|done].
      assert (drop CHUNK s ≠ []) as Hd
        by (intros Hnil%chunks_nil_iff; by rewrite Hnil in Hrest).
      assert (length (drop CHUNK s) ≠ 0%nat) as Hlen
        by (by destruct (drop CHUNK s)).
      rewrite length_drop in Hlen. rewrite length_take. unfold CHUNK in *. lia.
  - apply chunks_nil_iff.
Qed.

(** ** The handlers, all paths *)

Section HandlerPaths.

Variable ua us : char → bool.
Variable hash : bytes → Z.
Variable mktemp : gset string → string → string.
Variable docx_accepts : docx_input → bool.
Variable transport_accepts : file → bool.

Lemma sent_photos_app l1 l2 : sent_photos (l1 ++ l2) = sent_photos l1 ++ sent_photos l2.
Proof. apply omap_app. Qed.

Lemma plain_messages_app l1 l2 :
  plain_messages (l1 ++ l2) = plain_messages l1 ++ plain_messages l2.
Proof. apply omap_app. Qed.

Lemma keyboards_app l1 l2 : keyboards (l1 ++ l2) = keyboards l1 ++ keyboards l2.
Proof. apply omap_app. Qed.

Lemma plain_messages_chunks (l : list str) :
  plain_messages ((λ c, send_message c None) <$> l) = l.
Proof. unfold plain_messages. induction l as [|c l IH]; [done|]. simpl. by f_equal. Qed.

Lemma projections_chunks (l : list str) :
  sent_photos ((λ c, send_message c None) <$> l) = [] ∧
  keyboards ((λ c, send_message c None) <$> l) = [] ∧
  sent_documents ((λ c, send_message c None) <$> l) = [].
Proof.
  unfold sent_photos, keyboards, sent_documents.
  induction l as [|c l (H1 & H2 & H3)]; [done|]. simpl. done.
Qed.

(** What the delivery of a block sequence sends. *)
Lemma delivery_projections (l : list block) :
  plain_messages (flat_map block_events l) = flat_map chunks (block_texts l) ∧
  sent_photos (flat_map block_events l) = (block_images l).*1 ∧
  keyboards (flat_map block_events l) = [] ∧
  sent_documents (flat_map block_events l) = [].
Proof.
  induction l as [|[t|img ext] l (H1 & H2 & H3 & H4)]; [done| |];
    cbn [flat_map block_events block_texts block_images omap list_omap fmap list_fmap];
    rewrite plain_messages_app, sent_photos_app, keyboards_app, sent_documents_app,
      H1, H2, H3, H4.
  - destruct (projections_chunks (chunks t)) as (-> & -> & ->).
    by rewrite plain_messages_chunks.
  - done.
Qed.

(** X8. An accepted upload (MIME type [application/pdf], readable
    file) returns, keeps the downloaded file under [/tmp/<file_name>],
    stores the extracted sequence and sends, in this order: the
    "processing" reply, the blocks in sequence order (each text as its
    chunks, each image as one photo with its raw bytes), and one final
    prompt with the download and start-over buttons; no document. *)
Theorem X8_upload_transcript (u : upload) (doc : pdf) (w : world) :
  mime_type u = "application/pdf" → attachment u = Some doc →
  let h := handle_pdf ua us hash u in
  let blocks := extract_blocks ua us hash doc in
  outcome h w = Return () ∧
  stored (run h w) = blocks ∧
  files (run h w) = <["/tmp/" +:+ file_name u := Attachment (Some doc)]> (files w) ∧
  emitted h w
  = reply_text MSG_PROCESSING :: flat_map block_events blocks
    ++ [send_message MSG_READY (Some [[BTN_DOWNLOAD]; [BTN_START_OVER]])] ∧
  plain_messages (emitted h w) = flat_map chunks (block_texts blocks) ∧
  sent_photos (emitted h w) = (block_images blocks).*1 ∧
  keyboards (emitted h w) = [[[BTN_DOWNLOAD]; [BTN_START_OVER]]] ∧
  sent_documents (emitted h w) = [].
Proof.
  intros Hm Hd h blocks.
  assert (emitted h w
          = reply_text MSG_PROCESSING :: flat_map block_events blocks
            ++ [send_message MSG_READY (Some [[BTN_DOWNLOAD]; [BTN_START_OVER]])])
    as He.
  { apply emitted_app. unfold run, h. by rewrite (handle_pdf_accept ua us hash u doc w). }
  destruct (delivery_projections blocks) as (H1 & H2 & H3 & H4).
  unfold outcome, run, h. rewrite (handle_pdf_accept ua us hash u doc w) by done.
  fold h. cbn [fst snd files].
  split_and!; [done|apply stored_insert|done|done|..]; rewrite He;
    change (reply_text MSG_PROCESSING :: ?l) with ([reply_text MSG_PROCESSING] ++ l).
  - rewrite !plain_messages_app, H1. cbn. by rewrite app_nil_r.
  - rewrite !sent_photos_app, H2. cbn. by rewrite app_nil_r.
  - rewrite !keyboards_app, H3. done.
  - rewrite !sent_documents_app, H4. done.
Qed.

Lemma download_sent_documents w :
  sent_documents (emitted (download_word_callback mktemp docx_accepts transport_accepts) w)
  = match stored w with
    | [] => []
    | _ => if decide (writable docx_accepts (stored w))
           then if transport_accepts (Docx (built docx_accepts (stored w)))
                then [(Docx (built docx_accepts (stored w)), "converted.docx")]
                else []
           else []
    end.
Proof.
  destruct (download_summary mktemp docx_accepts transport_accepts w)
    as (_ & [(Hs & _ & _ & He)
            |[(Hs & Hw & Ht & _ & _ & He)
             |[(Hs & Hw & Ht & _ & _ & He)|(Hs & Hw & _ & _ & He)]]]);
    rewrite He.
  - by rewrite Hs.
  - rewrite Ht, decide_True by done. change (answer :: ?l) with ([answer] ++ l).
    rewrite !sent_documents_app, assembled_events_no_document.
    by destruct (stored w).
  - rewrite Ht, decide_True by done. change (answer :: ?l) with ([answer] ++ l).
    rewrite !sent_documents_app, assembled_events_no_document.
    by destruct (stored w).
  - rewrite decide_False by done. change (answer :: ?l) with ([answer] ++ l).
    rewrite !sent_documents_app, assembled_events_no_document.
    by destruct (stored w).
Qed.

(** X9. An upload declared as PDF that the readers cannot open ends the
    handler with the exception, after the "processing" reply alone: the
    downloaded file stays on disk, nothing is stored, and a download
    pressed afterwards still sends what the previous upload had left. *)
Theorem X9_unreadable_pdf (u : upload) (w : world) :
  mime_type u = "application/pdf" → attachment u = None →
  let h := handle_pdf ua us hash u in
  let dl := download_word_callback mktemp docx_accepts transport_accepts in
  outcome h w = Raise ∧
  emitted h w = [reply_text MSG_PROCESSING] ∧
  user_data (run h w) = user_data w ∧
  files (run h w) = <["/tmp/" +:+ file_name u := Attachment None]> (files w) ∧
  sent_documents (emitted dl (run h w)) = sent_documents (emitted dl w).
Proof.
  intros Hm Hd h dl.
  assert (h w = (Raise, World (user_data w)
                          (<["/tmp/" +:+ file_name u := Attachment None]> (files w))
                          (log w ++ [reply_text MSG_PROCESSING]))) as Hrun
    by by apply handle_pdf_unreadable.
  assert (user_data (run h w) = user_data w) as Hud by (unfold run; by rewrite Hrun).
  split_and!.
  - unfold outcome. by rewrite Hrun.
  - apply emitted_app. unfold run. by rewrite Hrun.
  - done.
  - unfold run. by rewrite Hrun.
  - unfold dl. rewrite !download_sent_documents.
    by rewrite (stored_user_data _ _ Hud).
Qed.

(** X10. A PDF with nothing to extract is accepted like any other: the
    empty sequence is stored (replacing what was there), the user gets
    the "processing" reply and the prompt with both buttons and nothing
    in between, and pressing download then gets the "no data" text and
    no document. *)
Theorem X10_empty_pdf (u : upload) (doc : pdf) (w : world) :
  mime_type u = "application/pdf" → attachment u = Some doc →
  Forall (λ p, extract_text ua us (page_text p) = [] ∧ page_images p = []) doc →
  let h := handle_pdf ua us hash u in
  let dl := download_word_callback mktemp docx_accepts transport_accepts in
  user_data (run h w) !! KEY = Some [] ∧
  emitted h w
  = [reply_text MSG_PROCESSING;
     send_message MSG_READY (Some [[BTN_DOWNLOAD]; [BTN_START_OVER]])] ∧
  emitted dl (run h w) = [answer; edit_message_text MSG_NO_DATA] ∧
  sent_documents (emitted dl (run h w)) = [].
Proof.
  intros Hm Hd Hblank h dl.
  apply (extract_blocks_nil_intro ua us hash) in Hblank.
  assert (h w = (Return (),
                 World (<[KEY := []]> (user_data w))
                       (<["/tmp/" +:+ file_name u := Attachment (Some doc)]> (files w))
                       (log w ++ [reply_text MSG_PROCESSING;
                                  send_message MSG_READY
                                    (Some [[BTN_DOWNLOAD]; [BTN_START_OVER]])])))
    as Hrun.
  { unfold h. rewrite (handle_pdf_accept ua us hash u doc w) by done.
    by rewrite Hblank. }
  assert (user_data (run h w) !! KEY = Some []) as Hk.
  { unfold run. rewrite Hrun. cbn [snd user_data]. apply lookup_insert_eq. }
  assert (stored (run h w) = []) as Hs by (unfold stored; by rewrite Hk).
  assert (emitted dl (run h w) = [answer; edit_message_text MSG_NO_DATA]) as Hdl.
  { apply emitted_app. unfold run at 1, dl.
    by rewrite (download_empty mktemp docx_accepts transport_accepts _ Hs). }
  split_and!.
  - done.
  - apply emitted_app. unfold run. by rewrite Hrun.
  - done.
  - by rewrite Hdl.
Qed.

End HandlerPaths.

(** ** Assembly and the way from upload to document *)

Section EndToEnd.

Variable ua us : char → bool.
Variable hash : bytes → Z.
Variable mktemp : gset string → string → string.
Variable docx_accepts : docx_input → bool.
Variable transport_accepts : file → bool.

Lemma pictures_app d1 d2 : pictures (d1 ++ d2) = pictures d1 ++ pictures d2.
Proof. apply omap_app. Qed.

Lemma pictures_built blocks :
  pictures (built docx_accepts blocks)
  = (λ b, (b, 5))
      <$> filter (λ b, docx_accepts (ImageFile b)) (block_images blocks).*1.
Proof.
  unfold built. induction blocks as [|[t|img ext] blocks IH]; [done| |];
    cbn [flat_map built_element]; rewrite pictures_app, IH.
  - done.
  - cbn [block_images omap list_omap fmap list_fmap fst].
    destruct (docx_accepts (ImageFile img)) eqn:Hacc.
    + rewrite filter_cons_True by (simpl; by rewrite Hacc). done.
    + rewrite filter_cons_False by (simpl; rewrite Hacc; by intros []). done.
Qed.

Lemma empty_paragraphs_built blocks :
  empty_paragraphs (built docx_accepts blocks)
  = length (filter (λ b, ¬ docx_accepts (ImageFile b)) (block_images blocks).*1).
Proof.
  unfold built, empty_paragraphs.
  induction blocks as [|[t|img ext] blocks IH]; [done| |];
    cbn [flat_map built_element]; rewrite omap_app, length_app, IH.
  - done.
  - cbn [block_images omap list_omap fmap list_fmap fst].
    destruct (docx_accepts (ImageFile img)) eqn:Hacc.
    + rewrite filter_cons_False by (simpl; rewrite Hacc; intros H; by apply H).
      done.
    + rewrite filter_cons_True by (simpl; rewrite Hacc; by intros []). done.
Qed.

Lemma warnings_assembled fs blocks :
  warnings (assembled_events mktemp docx_accepts fs blocks)
  = length (filter (λ b, ¬ docx_accepts (ImageFile b)) (block_images blocks).*1).
Proof.
  unfold warnings. revert fs.
  induction blocks as [|[t|img ext] blocks IH]; intros fs; [done|apply IH|].
  cbn [assembled_events block_images omap list_omap fmap list_fmap fst].
  destruct (docx_accepts (ImageFile img)) eqn:Hacc.
  + rewrite filter_cons_False by (simpl; rewrite Hacc; intros H; by apply H).
    apply IH.
  + rewrite filter_cons_True by (simpl; rewrite Hacc; by intros []).
    cbn. f_equal. apply IH.
Qed.

Lemma assembled_files_frame fs blocks path :
  assembled_files mktemp fs blocks !! path = fs !! path ∨
  path ∈ temp_files (assembled_events mktemp docx_accepts fs blocks).
Proof.
  revert fs. induction blocks as [|[t|img ext] blocks IH]; intros fs.
  - by left.
  - apply IH.
  - cbn [assembled_files assembled_events].
    set (name := temp_name mktemp (dom fs) ("." +:+ ext)).
    assert (∀ l, temp_files (NamedTemporaryFile name
                    :: (if docx_accepts (ImageFile img) then [] else [logger_warning]) ++ l)
                 = name :: temp_files l) as ->
      by (intros l; by destruct (docx_accepts (ImageFile img))).
    destruct (IH (<[name := RawBytes img]> fs)) as [Heq|Hin].
    + destruct (decide (path = name)) as [->|Hne].
      * right. by left.
      * left. by rewrite Heq, lookup_insert_ne.
    + right. by right.
Qed.

(** X11. Assembly stops on a text the document writer refuses and on
    nothing else: it returns exactly when every text is accepted.  The
    document then has one paragraph for each block; its pictures are
    the images the writer accepted, in block order and 5 inches wide,
    and every refused image has left an empty paragraph.  Whether the
    assembly returns or raises, it logs one warning for each refused
    image among the blocks it got to, sends no document and does not
    touch the session's dictionary. *)
Theorem X11_assembly_skips_refused_images (blocks : list block) (w : world) :
  let a := assemble mktemp docx_accepts blocks in
  let d := built docx_accepts blocks in
  let refused l := filter (λ b, ¬ docx_accepts (ImageFile b)) (block_images l).*1 in
  outcome a w = (if decide (writable docx_accepts blocks) then Return d else Raise) ∧
  length d = length blocks ∧
  pictures d
  = (λ b, (b, 5))
      <$> filter (λ b, docx_accepts (ImageFile b)) (block_images blocks).*1 ∧
  empty_paragraphs d = length (refused blocks) ∧
  warnings (emitted a w) = length (refused (reached docx_accepts blocks)) ∧
  sent_documents (emitted a w) = [] ∧
  user_data (run a w) = user_data w.
Proof.
  cbv zeta. unfold outcome, emitted, run, assemble. rewrite assemble_closed.
  cbn [fst snd user_data log]. rewrite drop_app_length.
  split_and!; [done| | | | | |done].
  - apply built_length.
  - apply pictures_built.
  - apply empty_paragraphs_built.
  - apply warnings_assembled.
  - apply assembled_events_no_document.
Qed.


Lemma handle_pdf_writes (u : upload) (w : world) :
  let w' := run (handle_pdf ua us hash u) w in
  (user_data w' = user_data w ∨
   ∃ doc, attachment u = Some doc ∧
          user_data w' = <[KEY := extract_blocks ua us hash doc]> (user_data w)) ∧
  (files w' = files w ∨
   files w' = <["/tmp/" +:+ file_name u := Attachment (attachment u)]> (files w)).
Proof.
  cbv zeta. unfold run.
  destruct (decide (mime_type u = "application/pdf")) as [Hm|Hm].
  - destruct (attachment u) as [doc|] eqn:Hd.
    + rewrite (handle_pdf_accept ua us hash u doc w) by done. cbn [snd user_data files].
      split; [right; by exists doc|by right].
    + rewrite (handle_pdf_unreadable ua us hash u w) by done. cbn [snd user_data files].
      split; [by left|by right].
  - rewrite handle_pdf_reject by done. split; by left.
Qed.

(** X13. No handler removes a file, and each writes only where the code
    names a path: an upload at [/tmp/<file_name>], a download at
    [/tmp/output.docx] and at the temporary files it has created,
    start-over and [/start] nowhere. *)
Theorem X13_files_written (u : upload) (w : world) (path : string) :
  let up := handle_pdf ua us hash u in
  let dl := download_word_callback mktemp docx_accepts transport_accepts in
  (files (run up w) !! path = files w !! path ∨ path = "/tmp/" +:+ file_name u) ∧
  (files (run dl w) !! path = files w !! path ∨ path = OUT_PATH ∨
   path ∈ temp_files (emitted dl w)) ∧
  files (run start_over_callback w) = files w ∧
  files (run start w) = files w ∧
  dom (files w) ⊆ dom (files (run up w)) ∧
  dom (files w) ⊆ dom (files (run dl w)).
Proof.
  cbv zeta. split_and!.
  - destruct (handle_pdf_writes u w) as [_ [-> | ->]]; [by left|].
    destruct (decide (path = "/tmp/" +:+ file_name u)) as [|Hne]; [by right|].
    left. by rewrite lookup_insert_ne.
  - pose proof (assembled_files_frame (files w)
                  (reached docx_accepts (stored w)) path) as Hframe.
    destruct (download_summary mktemp docx_accepts transport_accepts w)
      as (_ & [(_ & _ & Hf & _)
              |[(_ & _ & _ & _ & Hf & He)
               |[(_ & _ & _ & _ & Hf & He)|(_ & _ & _ & Hf & He)]]]).
    + left. by rewrite Hf.
    + rewrite Hf, He. change (answer :: ?l) with ([answer] ++ l).
      rewrite !temp_files_app. cbn [temp_files omap list_omap app]. rewrite app_nil_r.
      destruct (decide (path = OUT_PATH)) as [|Hne]; [by (right; left)|].
      rewrite lookup_insert_ne by done. destruct Hframe; [by left|by (right; right)].
    + rewrite Hf, He. change (answer :: ?l) with ([answer] ++ l).
      rewrite !temp_files_app. cbn [temp_files omap list_omap app].
      destruct (decide (path = OUT_PATH)) as [|Hne]; [by (right; left)|].
      rewrite lookup_insert_ne by done. destruct Hframe; [by left|by (right; right)].
    + rewrite Hf, He. change (answer :: ?l) with ([answer] ++ l).
      rewrite !temp_files_app. cbn [temp_files omap list_omap app].
      destruct Hframe; [by left|by (right; right)].
  - unfold run. by rewrite start_over_closed.
  - done.
  - destruct (handle_pdf_writes u w) as [_ [-> | ->]]; [done|].
    rewrite dom_insert_L. set_solver.
  - pose proof (assembled_files_dom mktemp docx_accepts (files w)
                  (reached docx_accepts (stored w))) as [Hsub _].
    destruct (download_summary mktemp docx_accepts transport_accepts w)
      as (_ & [(_ & _ & Hf & _)
              |[(_ & _ & _ & _ & Hf & _)
               |[(_ & _ & _ & _ & Hf & _)|(_ & _ & _ & Hf & _)]]]);
      rewrite Hf; [done| | |done]; rewrite dom_insert_L; set_solver.
Qed.


End EndToEnd.

(** ** Start-up *)

Section Startup.

Variable int_of_string : string → option Z.

(** [main] by cases on the environment. *)
Lemma main_cases (environ : gmap string string) :
  let token := environ !! "TELEGRAM_BOT_TOKEN" in
  let host := environ !! "RENDER_EXTERNAL_URL" in
  (truthy token = false ∧
   main int_of_string environ = ([logger_error ERR_NO_TOKEN], Return ())) ∨
  (∃ tok, token = Some tok ∧ truthy token = true ∧ truthy host = false ∧
     main int_of_string environ
     = (build tok :: (add_handler <$> HANDLERS) ++ [logger_error ERR_NO_HOST],
        Return ())) ∨
  (∃ tok hst, token = Some tok ∧ host = Some hst ∧
     truthy token = true ∧ truthy host = true ∧
     port_of int_of_string environ = None ∧
     main int_of_string environ = (build tok :: (add_handler <$> HANDLERS), Raise)) ∨
  (∃ tok hst port, token = Some tok ∧ host = Some hst ∧
     truthy token = true ∧ truthy host = true ∧
     port_of int_of_string environ = Some port ∧
     main int_of_string environ
     = (build tok :: (add_handler <$> HANDLERS)
          ++ [run_webhook "0.0.0.0" port tok (hst +:+ "/" +:+ tok)],
        Return ())).
Proof.
  cbv zeta. unfold main.
  destruct (environ !! "TELEGRAM_BOT_TOKEN") as [tok|] eqn:Ht; [|by left].
  destruct (truthy (Some tok)) eqn:Htt; [|by left]. right.
  destruct (environ !! "RENDER_EXTERNAL_URL") as [hst|] eqn:Hh;
    [|left; by exists tok].
  destruct (truthy (Some hst)) eqn:Hht; [|left; by exists tok]. right.
  destruct (port_of int_of_string environ) as [port|] eqn:Hp.
  - right. by exists tok, hst, port.
  - left. by exists tok, hst.
Qed.


(** X16. A webhook that is opened listens on all interfaces, on the
    port of [PORT] (5000 when it is not set), under the path that is
    the token, and tells the transport the URL made of the base URL, a
    slash and that same path. *)
Theorem X16_webhook_configuration (environ : gmap string string) :
  Forall (λ wh : string * Z * string * string,
            let '(listen, port, url_path, webhook_url) := wh in
            listen = "0.0.0.0" ∧
            environ !! "TELEGRAM_BOT_TOKEN" = Some url_path ∧
            (∃ hst, environ !! "RENDER_EXTERNAL_URL" = Some hst ∧
                    webhook_url = hst +:+ "/" +:+ url_path) ∧
            port_of int_of_string environ = Some port ∧
            (environ !! "PORT" = None → port = 5000%Z))
         (webhooks (main int_of_string environ).1).
Proof.
  destruct (main_cases environ)
    as [(Ht & ->)|[(tok & _ & Ht & Hh & ->)|[(tok & hst & _ & _ & Ht & Hh & Hp & ->)
                                           |(tok & hst & port & Htok & Hhst & Ht & Hh & Hp & ->)]]];
    cbn; try constructor; [|constructor].
  split_and!; [done|done|by exists hst|done|].
  intros Hnone. unfold port_of in Hp. rewrite Hnone in Hp. by injection Hp.
Qed.

End Startup.

(** ** Buttons and the handlers that take them *)

Section Buttons.

Variable ua us : char → bool.
Variable hash : bytes → Z.
Variable mktemp : gset string → string → string.
Variable docx_accepts : docx_input → bool.
Variable transport_accepts : file → bool.

Lemma keyboards_assembled fs blocks :
  keyboards (assembled_events mktemp docx_accepts fs blocks) = [].
Proof.
  revert fs. induction blocks as [|[t|img ext] blocks IH]; intros fs.
  - done.
  - apply IH.
  - cbn [assembled_events]. destruct (docx_accepts (ImageFile img)); cbn; apply IH.
Qed.

(** X17. The buttons and the handlers agree.  An upload shows the
    download and start-over buttons when it is accepted and no keyboard
    otherwise; a download leaves the start-over button alone exactly
    when it has sent the document; start-over shows none.  The data of
    each button is taken by exactly one of the callback-query handlers
    that [main] registers: the download button by
    [download_word_callback], the start-over button by
    [start_over_callback]. *)
Theorem X17_buttons_reach_their_handlers (u : upload) (w : world) :
  let up := handle_pdf ua us hash u in
  let dl := download_word_callback mktemp docx_accepts transport_accepts in
  (keyboards (emitted up w)
   = if bool_decide (mime_type u = "application/pdf" ∧ is_Some (attachment u))
     then [[[BTN_DOWNLOAD]; [BTN_START_OVER]]] else []) ∧
  (keyboards (emitted dl w)
   = match stored w, outcome dl w with
     | _ :: _, Return _ => [[[BTN_START_OVER]]]
     | _, _ => []
     end) ∧
  keyboards (emitted start_over_callback w) = [] ∧
  callbacks_for (callback_data BTN_DOWNLOAD) HANDLERS = [cb_download_word_callback] ∧
  callbacks_for (callback_data BTN_START_OVER) HANDLERS = [cb_start_over_callback].
Proof.
  cbv zeta. split_and!; [| | |done|done].
  - destruct (decide (mime_type u = "application/pdf")) as [Hm|Hm].
    + destruct (attachment u) as [doc|] eqn:Hd.
      * rewrite bool_decide_true by (split; [done|by eexists]).
        erewrite emitted_app;
          [|unfold run; by rewrite (handle_pdf_accept ua us hash u doc w)].
        change (reply_text MSG_PROCESSING :: ?l) with ([reply_text MSG_PROCESSING] ++ l).
        rewrite !keyboards_app.
        destruct (delivery_projections (extract_blocks ua us hash doc))
          as (_ & _ & -> & _). done.
      * rewrite bool_decide_false by (intros [_ [? ?]]; done).
        erewrite emitted_app;
          [|unfold run; by rewrite (handle_pdf_unreadable ua us hash u w)]. done.
    + rewrite bool_decide_false by (intros [? _]; done).
      erewrite emitted_app; [|unfold run; by rewrite handle_pdf_reject]. done.
  - destruct (download_summary mktemp docx_accepts transport_accepts w)
      as (_ & [(Hs & Ho & _ & He)
              |[(Hs & _ & Ht & Ho & _ & He)
               |[(Hs & _ & Ht & Ho & _ & He)|(Hs & _ & Ho & _ & He)]]]);
      rewrite He, Ho.
    + by rewrite Hs.
    + change (answer :: ?l) with ([answer] ++ l).
      rewrite !keyboards_app, keyboards_assembled. by destruct (stored w).
    + change (answer :: ?l) with ([answer] ++ l).
      rewrite !keyboards_app, keyboards_assembled. by destruct (stored w).
    + change (answer :: ?l) with ([answer] ++ l).
      rewrite !keyboards_app, keyboards_assembled. by destruct (stored w).
  - erewrite emitted_app; [|unfold run; by rewrite start_over_closed]. done.
Qed.

End Buttons.

(** ** The further properties at the sample inputs *)

Lemma X2_blank_text_gives_no_block_witness :
  Forall (λ c, ascii_space c = true) s_blank ∧
  normalize no_unicode no_unicode s_blank = [].
Proof.
  assert (Forall (λ c, ascii_space c = true) s_blank) as H by (repeat constructor).
  split; [exact H|].
  exact (proj1 (X2_blank_text_gives_no_block no_unicode no_unicode s_blank [] H)).
Defined.

Lemma X6_blocks_in_document_order_witness :
  let T1 := [(0%nat, Text s_example); (0%nat, Image img_a "png")] in
  extract_trace no_unicode no_unicode byte_sum_hash doc_two_texts
  = T1 ++ (1%nat, Text s_ple) :: [] ∧
  Forall (λ x : nat * block, (x.1 < 1)%nat) T1.
Proof.
  cbv zeta.
  assert (extract_trace no_unicode no_unicode byte_sum_hash doc_two_texts
          = [(0%nat, Text s_example); (0%nat, Image img_a "png")]
            ++ (1%nat, Text s_ple) :: []) as H by (vm_compute; reflexivity).
  split; [exact H|].
  exact (proj2 (proj2 (X6_blocks_in_document_order no_unicode no_unicode
                         byte_sum_hash doc_two_texts)) _ _ _ _ H).
Defined.

Lemma X8_upload_transcript_witness :
  let u := Upload "application/pdf" "report.pdf" (Some doc_two_texts) in
  let h := handle_pdf no_unicode no_unicode byte_sum_hash u in
  mime_type u = "application/pdf" ∧ attachment u = Some doc_two_texts ∧
  plain_messages (emitted h world_text_image) = [s_example; s_ple] ∧
  sent_photos (emitted h world_text_image) = [img_a].
Proof.
  cbv zeta.
  destruct (X8_upload_transcript no_unicode no_unicode byte_sum_hash
              (Upload "application/pdf" "report.pdf" (Some doc_two_texts))
              doc_two_texts world_text_image eq_refl eq_refl)
    as (_ & _ & _ & _ & Hm & Hp & _).
  split_and!; [reflexivity|reflexivity|exact Hm|exact Hp].
Defined.

Lemma X9_unreadable_pdf_witness :
  let u := Upload "application/pdf" "broken.pdf" None in
  let h := handle_pdf no_unicode no_unicode byte_sum_hash u in
  mime_type u = "application/pdf" ∧ attachment u = None ∧
  outcome h world_text_image = Raise ∧
  user_data (run h world_text_image) = user_data world_text_image.
Proof.
  cbv zeta.
  destruct (X9_unreadable_pdf no_unicode no_unicode byte_sum_hash counting_mktemp
              accept_all accept_all (Upload "application/pdf" "broken.pdf" None)
              world_text_image eq_refl eq_refl)
    as (Ho & _ & Hud & _).
  split_and!; [reflexivity|reflexivity|exact Ho|exact Hud].
Defined.

Lemma X10_empty_pdf_witness :
  let u := Upload "application/pdf" "blank.pdf" (Some doc_blank) in
  let h := handle_pdf no_unicode no_unicode byte_sum_hash u in
  let dl := download_word_callback counting_mktemp accept_all accept_all in
  mime_type u = "application/pdf" ∧ attachment u = Some doc_blank ∧
  Forall (λ p, extract_text no_unicode no_unicode (page_text p) = []
               ∧ page_images p = []) doc_blank ∧
  user_data (run h world_text_image) !! KEY = Some [] ∧
  emitted dl (run h world_text_image) = [answer; edit_message_text MSG_NO_DATA].
Proof.
  cbv zeta.
  assert (Forall (λ p, extract_text no_unicode no_unicode (page_text p) = []
                       ∧ page_images p = []) doc_blank) as H
    by (repeat constructor).
  destruct (X10_empty_pdf no_unicode no_unicode byte_sum_hash counting_mktemp
              accept_all accept_all (Upload "application/pdf" "blank.pdf" (Some doc_blank))
              doc_blank world_text_image eq_refl eq_refl H)
    as (Hk & _ & Hdl & _).
  split_and!; [reflexivity|reflexivity|exact H|exact Hk|exact Hdl].
Defined.

